(** * Persistence ordering and query-result cache of the ORM runtime

    A shallow embedding of

    - [SubjectTopologicalSorter] (src/persistence/SubjectTopologicalSorter.ts):
      the sorter that orders insert and remove subjects, together with the
      depth-first [toposort] it carries;
    - [RedisQueryResultCache], the query-result cache over Redis: key
      selection, lookup, store, removal, clearing and expiry with the two
      Redis client generations.

    JavaScript objects that are compared by identity (subjects, entity
    metadatas, arrays) are references into a store; arrays are lists. *)

From stdpp Require Import base tactics option list strings gmap relations.
From Stdlib Require Import ZArith Lia Ascii DecimalString.

Local Open Scope Z_scope.

(** ** JavaScript array primitives used by the sources *)

Module JS.

Section Arrays.
Context {A : Type} `{EqDecision A}.

(** [arr.indexOf(x)]: position of the first element strictly equal to
    [x], or [-1]. *)
Fixpoint indexOf (arr : list A) (x : A) : Z :=
  match arr with
  | [] => -1
  | y :: arr' =>
      if decide (y = x) then 0
      else let r := indexOf arr' x in
           if decide (r < 0) then -1 else 1 + r
  end.

(** [arr.splice(start, 1)]: a negative [start] counts from the end of
    the array (so [-1] removes the last element), a [start] beyond the
    end removes nothing. *)
Definition splice1 (arr : list A) (start : Z) : list A :=
  let len := Z.of_nat (length arr) in
  let actualStart :=
    if decide (start < 0) then Z.max (len + start) 0 else Z.min start len in
  delete (Z.to_nat actualStart) arr.

(** [arr.forEach(f)] over an array that may have holes ([None]), as
    [new Array(n)] creates them: holes are skipped. *)
Definition forEach {S : Type} (arr : list (option A)) (f : A → S → S)
    (s : S) : S :=
  foldl (λ s slot, match slot with Some x => f x s | None => s end) s arr.

(** [arr[i] = x]: an index at or beyond the length extends the array
    with holes, an index that is not an array index (negative) only sets a
    property and leaves the elements alone. *)
Definition store (arr : list (option A)) (i : Z) (x : A) : list (option A) :=
  if decide (0 ≤ i) then
    if decide (Z.to_nat i < length arr)%nat then <[Z.to_nat i := Some x]> arr
    else arr ++ replicate (Z.to_nat i - length arr) None ++ [Some x]
  else arr.
End Arrays.

End JS.

(** ** Errors and results *)

(** [TypeORMError] as the sorter throws it; the message of the first is
    ["Cyclic dependency: " + JSON.stringify(node)], the message of the
    second ends in [JSON.stringify(node)] as well. *)
Inductive TypeORMError (A : Type) : Type :=
  | CyclicDependency (node : A)
  | UnknownNode (node : A).
Arguments CyclicDependency {A} node.
Arguments UnknownNode {A} node.

(** Outcome of a synchronous call: a value, a thrown error, or the
    recursion bound of the model exhausted ([toposort_spec] shows that the
    bound used by [toposort] never is). *)
Inductive result (E A : Type) : Type :=
  | Ok (a : A)
  | Throw (e : E)
  | OutOfFuel.
Arguments Ok {E A} a.
Arguments Throw {E A} e.
Arguments OutOfFuel {E A}.

Definition bind {E A B} (r : result E A) (k : A → result E B) : result E B :=
  match r with
  | Ok a => k a
  | Throw e => Throw e
  | OutOfFuel => OutOfFuel
  end.

Notation "x <- r ;; k" := (bind r (λ x, k))
  (at level 100, r at next level, right associativity, only parsing).

(** Sequential loop whose body may throw. *)
Definition forM {E X S} (body : X → S → result E S) : list X → S → result E S :=
  fix go xs s :=
    match xs with
    | [] => Ok s
    | x :: xs' => s' <- body x s ;; go xs' s'
    end.

(** ** The topological sort of [SubjectTopologicalSorter.toposort] *)

Module Toposort.

Section Toposort.
Context {A : Type} `{EqDecision A}.

Abbreviation edge := (A * A)%type.

(** [if (res.indexOf(x) < 0) res.push(x)] *)
Definition addNode (res : list A) (x : A) : list A :=
  if decide (JS.indexOf res x < 0) then res ++ [x] else res.

Definition uniqueNodes (arr : list edge) : list A :=
  foldl (λ res e, addNode (addNode res e.1) e.2) [] arr.

(** The mutable locals of [toposort] that [visit] closes over. *)
Record locals := Locals {
  cursor : Z;
  sorted : list (option A);
  visited : gset Z
}.

Section Visit.
Variable edges : list edge.
Variable nodes : list A.

(** [visit(node, i, predecessors)]; [fuel] bounds the depth of the
    recursion. The inner [do ... while (i)] walks [outgoing] from its last
    element to its first. *)
Fixpoint visit (fuel : nat) (node : A) (i : Z) (predecessors : list A)
    (st : locals) : result (TypeORMError A) locals :=
  match fuel with
  | O => OutOfFuel
  | S fuel' =>
      if decide (0 ≤ JS.indexOf predecessors node) then
        Throw (CyclicDependency node)
      else if decide (JS.indexOf nodes node = -1) then
        Throw (UnknownNode node)
      else if decide (i ∈ visited st) then Ok st
      else
        let st := Locals (cursor st) (sorted st) ({[ i ]} ∪ visited st) in
        let outgoing := filter (λ e : edge, e.1 = node) edges in
        st <- (if decide (length outgoing ≠ 0%nat) then
                 let preds := predecessors ++ [node] in
                 forM (λ (e : edge) st,
                         let child := e.2 in
                         visit fuel' child (JS.indexOf nodes child) preds st)
                      (reverse outgoing) st
               else Ok st) ;;
        let cursor' := cursor st - 1 in
        Ok (Locals cursor' (JS.store (sorted st) cursor' node) (visited st))
  end.
End Visit.

(** [toposort(edges)]: the [while (i--)] loop takes the nodes from the
    last discovered to the first as roots. A path of the traversal has
    distinct nodes, so the bound on the depth is one more than their
    number. *)
Definition toposort (edges : list edge) : result (TypeORMError A) (list (option A)) :=
  let nodes := uniqueNodes edges in
  let cursor := Z.of_nat (length nodes) in
  let st0 := Locals cursor (replicate (length nodes) None) ∅ in
  st <- forM (λ '(i, node) st,
                if decide (i ∈ visited st) then Ok st
                else visit edges nodes (S (length nodes)) node i [] st)
             (reverse (imap (λ i node, (Z.of_nat i, node)) nodes)) st0 ;;
  Ok (sorted st).

(** *** Vocabulary of the statements about [toposort] *)

(** [x] depends on [y]: the edge list holds the pair [[x, y]]. *)
Definition dependsOn (edges : list edge) (x y : A) : Prop := (x, y) ∈ edges.

(** [n] lies on a cycle of the dependency graph. *)
Definition onCycle (edges : list edge) (n : A) : Prop :=
  tc (dependsOn edges) n n.

Definition acyclic (edges : list edge) : Prop := ∀ n, ¬ onCycle edges n.

(** Every node of [l] has all the nodes it depends on later in [l]. *)
Fixpoint topological (edges : list edge) (l : list A) : Prop :=
  match l with
  | [] => True
  | u :: l' => (∀ v, dependsOn edges u v → v ∈ l') ∧ topological edges l'
  end.

(** The locals of [toposort] between two steps of the traversal:
    [preds] is the path under visit and [l] the nodes already placed, which
    fill [sorted] from [cursor] to its end. *)
Definition Inv (edges : list edge) (preds l : list A) (st : locals) : Prop :=
  sorted st = replicate (Z.to_nat (cursor st)) None ++ (Some <$> l)
  ∧ cursor st = Z.of_nat (length (uniqueNodes edges)) - Z.of_nat (length l)
  ∧ NoDup (preds ++ l)
  ∧ (∀ x, x ∈ preds ++ l → x ∈ uniqueNodes edges)
  ∧ (∀ i, i ∈ visited st ↔
          ∃ x, x ∈ preds ++ l ∧ i = JS.indexOf (uniqueNodes edges) x)
  ∧ topological edges l.

(** What a step of the traversal started with [l] placed may do: place
    further nodes, among them those of [goal], or report a node that lies
    on a cycle. *)
Definition post (edges : list edge) (preds l goal : list A)
    (r : result (TypeORMError A) locals) : Prop :=
  match r with
  | Ok st' =>
      ∃ new, Inv edges preds (new ++ l) st' ∧ ∀ x, x ∈ goal → x ∈ new ++ l
  | Throw e => ∃ n, e = CyclicDependency n ∧ onCycle edges n
  | OutOfFuel => False
  end.
End Toposort.

End Toposort.

(** ** Entity metadata and subjects *)

(** Identity of an [EntityMetadata] object, of a [Subject] object and of
    an array in the heap. *)
Definition MetadataRef := nat.
Definition SubjectRef := nat.
Definition ArrayRef := nat.

(** Modelled from the spec: the class [RelationMetadata] is not among the
    sources; a relation descriptor has a nullability flag and the metadata
    it points to. *)
Record RelationMetadata := Relation {
  isNullable : bool;
  inverseEntityMetadata : MetadataRef
}.

(** Modelled from the spec: the class [EntityMetadata] is not among the
    sources; it exposes its [targetName], its [inheritanceTree] (here the
    [name] of each class of the tree, which is all the sorter reads) and its
    relations that have a join column. *)
Record EntityMetadata := Metadata {
  targetName : string;
  inheritanceTree : list string;
  relationsWithJoinColumns : list RelationMetadata
}.

(** Modelled from the spec: the class [Subject] is not among the sources;
    [entity] and [databaseEntity] are objects or undefined. The sorter reads
    [subject.metadata] of every subject, so every subject carries one. *)
Record Subject := MkSubject {
  metadata : MetadataRef;
  entity : option nat;
  databaseEntity : option nat
}.

(** ["insert" | "delete"] *)
Inductive Direction := insert | delete.

Global Instance Direction_eq_dec : EqDecision Direction.
Proof. solve_decision. Defined.

(** ** [SubjectTopologicalSorter] *)

Module SubjectTopologicalSorter.

Section Sorter.
(** The objects behind the references. *)
Variable metadataAt : MetadataRef → EntityMetadata.
Variable subjectAt : SubjectRef → Subject.

(** The fields of a sorter instance. *)
Record t := Sorter {
  subjects : list SubjectRef;
  metadatas : list MetadataRef
}.

Definition getUniqueMetadatas (subjects : list SubjectRef) : list MetadataRef :=
  foldl (λ metadatas subject,
           if decide (JS.indexOf metadatas (metadata (subjectAt subject)) = -1)
           then metadatas ++ [metadata (subjectAt subject)]
           else metadatas)
        [] subjects.

(** [constructor(subjects)]: [[...subjects]] is a new array with the same
    elements. *)
Definition new (subjects : list SubjectRef) : t :=
  Sorter subjects (getUniqueMetadatas subjects).

(** [removeAlreadySorted(subjects)], on the array [this.subjects]. *)
Definition removeAlreadySorted (this_subjects subjects : list SubjectRef)
    : list SubjectRef :=
  foldl (λ this_subjects subject,
           JS.splice1 this_subjects (JS.indexOf this_subjects subject))
        this_subjects subjects.

Definition getNonNullableDependencies (this : t) : list (string * string) :=
  foldl (λ dependencies metadata,
           foldl (λ dependencies relation,
                    if isNullable relation then dependencies
                    else dependencies ++
                           [(targetName (metadataAt metadata),
                             targetName (metadataAt (inverseEntityMetadata relation)))])
                 dependencies
                 (relationsWithJoinColumns (metadataAt metadata)))
        [] (metadatas this).

Definition getDependencies (this : t) : list (string * string) :=
  foldl (λ dependencies metadata,
           foldl (λ dependencies relation,
                    if decide (inverseEntityMetadata relation = metadata)
                    then dependencies
                    else dependencies ++
                           [(targetName (metadataAt metadata),
                             targetName (metadataAt (inverseEntityMetadata relation)))])
                 dependencies
                 (relationsWithJoinColumns (metadataAt metadata)))
        [] (metadatas this).

(** The filter of the junction step:
    [!subject.entity && !subject.databaseEntity]. *)
Definition isJunction (subject : SubjectRef) : Prop :=
  entity (subjectAt subject) = None ∧ databaseEntity (subjectAt subject) = None.

(** The filter of the first [forEach]. *)
Definition matchesTargetOrAncestor (sortedEntityTarget : string)
    (subject : SubjectRef) : Prop :=
  targetName (metadataAt (metadata (subjectAt subject))) = sortedEntityTarget
  ∨ Exists (λ s, s = sortedEntityTarget)
           (inheritanceTree (metadataAt (metadata (subjectAt subject)))).

(** The filter of the second [forEach]. *)
Definition matchesTarget (sortedEntityTarget : string)
    (subject : SubjectRef) : Prop :=
  targetName (metadataAt (metadata (subjectAt subject))) = sortedEntityTarget.

Global Instance isJunction_dec s : Decision (isJunction s).
Proof. unfold isJunction. apply _. Defined.

Global Instance matchesTargetOrAncestor_dec n s :
  Decision (matchesTargetOrAncestor n s).
Proof. unfold matchesTargetOrAncestor. apply _. Defined.

Global Instance matchesTarget_dec n s : Decision (matchesTarget n s).
Proof. unfold matchesTarget. apply _. Defined.

(** The state a [sort] call works on: the array [this.subjects] and the
    local array [sortedSubjects]. *)
Abbreviation work := (list SubjectRef * list SubjectRef)%type.

(** The three steps that the junction step and each round of the two
    [forEach] share: filter [this.subjects], push the matches onto
    [sortedSubjects], remove them from [this.subjects]. *)
Definition pull (keep : SubjectRef → Prop) `{!∀ s, Decision (keep s)}
    (w : work) : work :=
  let '(this_subjects, sortedSubjects) := w in
  let entityTargetSubjects := filter keep this_subjects in
  (removeAlreadySorted this_subjects entityTargetSubjects,
   sortedSubjects ++ entityTargetSubjects).

(** [sort(direction)]: the value of [this.subjects] after the call, and
    the outcome. When there are no metadatas the array returned is
    [this.subjects] itself. *)
Definition sort (this : t) (direction : Direction)
    : list SubjectRef * result (TypeORMError string) (list SubjectRef) :=
  if decide (length (metadatas this) = 0%nat) then
    (subjects this, Ok (subjects this))
  else
    let w : work := (subjects this, []) in
    let w := if decide (direction = delete) then pull isJunction w else w in
    let nonNullableDependencies := getNonNullableDependencies this in
    match Toposort.toposort nonNullableDependencies with
    | Throw e => (w.1, Throw e)
    | OutOfFuel => (w.1, OutOfFuel)
    | Ok sortedNonNullableEntityTargets =>
        let sortedNonNullableEntityTargets :=
          if decide (direction = insert)
          then reverse sortedNonNullableEntityTargets
          else sortedNonNullableEntityTargets in
        let w :=
          JS.forEach sortedNonNullableEntityTargets
            (λ sortedEntityTarget, pull (matchesTargetOrAncestor sortedEntityTarget))
            w in
        let otherDependencies := getDependencies this in
        match Toposort.toposort otherDependencies with
        | Throw e => (w.1, Throw e)
        | OutOfFuel => (w.1, OutOfFuel)
        | Ok sortedOtherEntityTargets =>
            let sortedOtherEntityTargets :=
              if decide (direction = insert)
              then reverse sortedOtherEntityTargets
              else sortedOtherEntityTargets in
            let w :=
              JS.forEach sortedOtherEntityTargets
                (λ sortedEntityTarget, pull (matchesTarget sortedEntityTarget))
                w in
            (w.1, Ok (w.2 ++ w.1))
        end
    end.

(** [new SubjectTopologicalSorter(subjects).sort(direction)], the
    [sort(subjects, direction)] of the specification. *)
Definition sortSubjects (subjects : list SubjectRef) (direction : Direction)
    : result (TypeORMError string) (list SubjectRef) :=
  (sort (new subjects) direction).2.
End Sorter.

End SubjectTopologicalSorter.

(** ** The sorter as an object over a heap of arrays *)

Module SorterObject.

Section Object.
Variable metadataAt : MetadataRef → EntityMetadata.
Variable subjectAt : SubjectRef → Subject.

(** The arrays of subjects that exist, by reference. *)
Abbreviation heap := (gmap ArrayRef (list SubjectRef)).

(** A new array with the given elements. *)
Definition alloc (h : heap) (elements : list SubjectRef) : heap * ArrayRef :=
  let r := fresh (dom h) in (<[r := elements]> h, r).

(** A sorter instance: [this.subjects] refers to an array. *)
Record instance := Instance {
  subjectsRef : ArrayRef;
  metadatasOf : list MetadataRef
}.

(** [new SubjectTopologicalSorter(subjects)]: [[...subjects]] is a new
    array. *)
Definition construct (h : heap) (subjects : ArrayRef) : heap * instance :=
  let elements := default [] (h !! subjects) in
  let '(h, copy) := alloc h elements in
  (h, Instance copy (SubjectTopologicalSorter.getUniqueMetadatas subjectAt elements)).

(** [this.sort(direction)]: the removals go to the array [this.subjects]
    refers to; the array returned is [this.subjects] itself when there are
    no metadatas and the new array [sortedSubjects] otherwise. *)
Definition sort (h : heap) (this : instance) (direction : Direction)
    : heap * result (TypeORMError string) ArrayRef :=
  let this_subjects := default [] (h !! subjectsRef this) in
  let '(this_subjects', r) :=
    SubjectTopologicalSorter.sort metadataAt subjectAt
      (SubjectTopologicalSorter.Sorter this_subjects (metadatasOf this)) direction in
  let h := <[subjectsRef this := this_subjects']> h in
  match r with
  | Ok sortedSubjects =>
      if decide (length (metadatasOf this) = 0%nat) then (h, Ok (subjectsRef this))
      else let '(h, a) := alloc h sortedSubjects in (h, Ok a)
  | Throw e => (h, Throw e)
  | OutOfFuel => (h, OutOfFuel)
  end.

(** The heap after a series of [sort] calls on one instance. *)
Definition sortRepeatedly (h : heap) (this : instance) (directions : list Direction)
    : heap :=
  foldl (λ h direction, (sort h this direction).1) h directions.
End Object.

End SorterObject.

(** ** [JSON.parse] and [JSON.stringify]

    The grammar of JSON texts as [JSON.parse] accepts it; [None] stands for
    the [SyntaxError] it throws. A string value keeps its characters as
    written between the quotes (escape sequences checked, not decoded) and a
    number keeps its literal. *)

Module JSON.

#[warnings="-register-all"]
Inductive value : Type :=
  | Null
  | Bool (b : bool)
  | Number (literal : string)
  | Str (raw : string)
  | Array (items : list value)
  | Object (members : list (string * value)).

(** The double quote and the backslash, by their codes. *)
Definition dquote : ascii := "034"%char.
Definition backslash : ascii := "092"%char.

(** Space, tab, line feed and carriage return. *)
Definition isWhitespace (c : ascii) : bool :=
  (c =? " ")%char || (c =? "009")%char || (c =? "010")%char || (c =? "013")%char.

Definition isDigit (c : ascii) : bool :=
  (48 <=? nat_of_ascii c)%nat && (nat_of_ascii c <=? 57)%nat.

Definition isHex (c : ascii) : bool :=
  isDigit c
  || ((97 <=? nat_of_ascii c)%nat && (nat_of_ascii c <=? 102)%nat)
  || ((65 <=? nat_of_ascii c)%nat && (nat_of_ascii c <=? 70)%nat).

(** The characters that may follow a backslash, [u] apart. *)
Definition isEscape (c : ascii) : bool :=
  (c =? dquote)%char || (c =? backslash)%char || (c =? "/")%char
  || (c =? "b")%char || (c =? "f")%char || (c =? "n")%char
  || (c =? "r")%char || (c =? "t")%char.

Fixpoint skipWhitespace (s : string) : string :=
  match s with
  | String c s' => if isWhitespace c then skipWhitespace s' else s
  | EmptyString => s
  end.

(** The longest prefix of digits, and the rest. *)
Fixpoint digits (s : string) : string * string :=
  match s with
  | String c s' =>
      if isDigit c then let '(ds, rest) := digits s' in (String c ds, rest)
      else (EmptyString, s)
  | EmptyString => (EmptyString, s)
  end.

Definition nonEmpty (p : string * string) : option (string * string) :=
  match p.1 with EmptyString => None | _ => Some p end.

Definition parseFraction (s : string) : option (string * string) :=
  match s with
  | String "." s' =>
      '(ds, rest) ← nonEmpty (digits s'); Some (String "." ds, rest)
  | _ => Some (EmptyString, s)
  end.

Definition parseExponent (s : string) : option (string * string) :=
  match s with
  | String e s' =>
      if (e =? "e")%char || (e =? "E")%char then
        let '(sign, s'') :=
          match s' with
          | String "+" t => ("+", t)
          | String "-" t => ("-", t)
          | _ => (EmptyString, s')
          end in
        '(ds, rest) ← nonEmpty (digits s''); Some (String e (sign +:+ ds), rest)
      else Some (EmptyString, s)
  | EmptyString => Some (EmptyString, s)
  end.

(** A number: optional minus, integer part without leading zero,
    optional fraction, optional exponent. The literal and the rest. *)
Definition parseNumber (s : string) : option (string * string) :=
  let '(sign, s) :=
    match s with String "-" s' => ("-", s') | _ => (EmptyString, s) end in
  match s with
  | String c s' =>
      if isDigit c then
        let '(int, s) :=
          if (c =? "0")%char then (String c EmptyString, s')
          else let '(ds, rest) := digits s' in (String c ds, rest) in
        '(frac, s) ← parseFraction s;
        '(exp, s) ← parseExponent s;
        Some (sign +:+ int +:+ frac +:+ exp, s)
      else None
  | EmptyString => None
  end.

Definition prepend (c : ascii) (r : option (string * string)) : option (string * string) :=
  '(raw, rest) ← r; Some (String c raw, rest).

(** The characters of a string after its opening quote, up to the
    closing quote: no control character, escapes well formed. The
    characters and the rest. *)
Fixpoint parseChars (s : string) : option (string * string) :=
  match s with
  | EmptyString => None
  | String c s' =>
      if (c =? dquote)%char then Some (EmptyString, s')
      else if (c =? backslash)%char then
        match s' with
        | String e s'' =>
            if isEscape e then prepend c (prepend e (parseChars s''))
            else if (e =? "u")%char then
              match s'' with
              | String h1 (String h2 (String h3 (String h4 s4))) =>
                  if isHex h1 && isHex h2 && isHex h3 && isHex h4 then
                    prepend c (prepend e (prepend h1 (prepend h2 (prepend h3
                      (prepend h4 (parseChars s4))))))
                  else None
              | _ => None
              end
            else None
        | EmptyString => None
        end
      else if (nat_of_ascii c <? 32)%nat then None
      else prepend c (parseChars s')
  end.

(** [s] without its prefix [word], when it has it. *)
Fixpoint stripPrefix (word s : string) : option string :=
  match word, s with
  | EmptyString, _ => Some s
  | String c word', String d s' => if (c =? d)%char then stripPrefix word' s' else None
  | String _ _, EmptyString => None
  end.

(** The elements of an array after its opening bracket, up to the closing
    bracket; [n] bounds their number. *)
Definition parseElements (parseValue : string → option (value * string))
    : nat → string → option (list value * string) :=
  fix go n s :=
    match n with
    | O => None
    | S n' =>
        '(v, rest) ← parseValue s;
        match skipWhitespace rest with
        | String c rest' =>
            if (c =? ",")%char then '(vs, r) ← go n' rest'; Some (v :: vs, r)
            else if (c =? "]")%char then Some ([v], rest')
            else None
        | EmptyString => None
        end
    end.

(** The members of an object after its opening brace, up to the closing
    brace; [n] bounds their number. *)
Definition parseMembers (parseValue : string → option (value * string))
    : nat → string → option (list (string * value) * string) :=
  fix go n s :=
    match n with
    | O => None
    | S n' =>
        match skipWhitespace s with
        | String q s1 =>
            if (q =? dquote)%char then
              '(key, s2) ← parseChars s1;
              match skipWhitespace s2 with
              | String colon s3 =>
                  if (colon =? ":")%char then
                    '(v, rest) ← parseValue s3;
                    match skipWhitespace rest with
                    | String c rest' =>
                        if (c =? ",")%char then
                          '(ms, r) ← go n' rest'; Some ((key, v) :: ms, r)
                        else if (c =? "}")%char then Some ([(key, v)], rest')
                        else None
                    | EmptyString => None
                    end
                  else None
              | EmptyString => None
              end
            else None
        | EmptyString => None
        end
    end.

(** A value, with white space before it; [fuel] bounds the nesting. *)
Fixpoint parseValue (fuel : nat) (s : string) : option (value * string) :=
  match fuel with
  | O => None
  | S fuel' =>
      match skipWhitespace s with
      | String c s' =>
          if (c =? "{")%char then
            match skipWhitespace s' with
            | String "}" rest => Some (Object [], rest)
            | _ => '(ms, rest) ← parseMembers (parseValue fuel') (S (String.length s')) s';
                   Some (Object ms, rest)
            end
          else if (c =? "[")%char then
            match skipWhitespace s' with
            | String "]" rest => Some (Array [], rest)
            | _ => '(vs, rest) ← parseElements (parseValue fuel') (S (String.length s')) s';
                   Some (Array vs, rest)
            end
          else if (c =? dquote)%char then
            '(raw, rest) ← parseChars s'; Some (Str raw, rest)
          else if (c =? "t")%char then
            rest ← stripPrefix "rue" s'; Some (Bool true, rest)
          else if (c =? "f")%char then
            rest ← stripPrefix "alse" s'; Some (Bool false, rest)
          else if (c =? "n")%char then
            rest ← stripPrefix "ull" s'; Some (Null, rest)
          else
            '(lit, rest) ← parseNumber (String c s'); Some (Number lit, rest)
      | EmptyString => None
      end
  end.

(** [JSON.parse(text)]: one value and nothing but white space after it.
    Nesting and numbers of elements are below the length of the text. *)
Definition parse (text : string) : option value :=
  '(v, rest) ← parseValue (S (String.length text)) text;
  match skipWhitespace rest with
  | EmptyString => Some v
  | String _ _ => None
  end.

(** [JSON.stringify(value)] without indentation. *)
Definition quote (raw : string) : string :=
  String dquote (raw +:+ String dquote EmptyString).

Definition join (parts : list string) : string :=
  match parts with
  | [] => EmptyString
  | p :: ps => foldl (λ acc q, acc +:+ "," +:+ q) p ps
  end.

Fixpoint stringify (v : value) : string :=
  match v with
  | Null => "null"
  | Bool true => "true"
  | Bool false => "false"
  | Number literal => literal
  | Str raw => quote raw
  | Array items =>
      "[" +:+ join ((fix each vs := match vs with
                                   | [] => []
                                   | v :: vs' => stringify v :: each vs'
                                   end) items) +:+ "]"
  | Object members =>
      "{" +:+ join ((fix each ms := match ms with
                                   | [] => []
                                   | (k, v) :: ms' =>
                                       (quote k +:+ ":" +:+ stringify v) :: each ms'
                                   end) members) +:+ "}"
  end.
End JSON.

(** ** [RedisQueryResultCache] *)

Module RedisQueryResultCache.

(** Modelled from the spec: the interface [QueryResultCacheOptions] is not
    among the sources; its attributes are those of the cache entry of the
    specification: optional [identifier], [query], [time] and [result], and
    [duration]. *)
Record QueryResultCacheOptions := Options {
  identifier : option string;
  query : option string;
  time : option Z;
  duration : Z;
  result : option JSON.value
}.

Inductive ClientType := redis | ioredis | ioredis_cluster.

Global Instance ClientType_eq_dec : EqDecision ClientType.
Proof. solve_decision. Defined.

(** What a promise is rejected with or a callback throws: the
    [SyntaxError] of [JSON.parse], or the [err] of the client. *)
Inductive Error := SyntaxError | ClientError (message : string).

(** The state of a promise once the client has answered. *)
Inductive promise (A : Type) : Type :=
  | Fulfilled (a : A)
  | Rejected (e : Error)
  | Pending.
Arguments Fulfilled {A} a.
Arguments Rejected {A} e.
Arguments Pending {A}.

(** The promise a cache method returns, and the exception, if any, that
    left a callback without reaching the promise. *)
Record outcome (A : Type) := Outcome {
  settled : promise A;
  uncaught : option Error
}.
Arguments Outcome {A} settled uncaught.
Arguments settled {A} o.
Arguments uncaught {A} o.

Definition resolve {A} (a : A) : outcome A := Outcome (Fulfilled a) None.
Definition reject {A} (e : Error) : outcome A := Outcome (Rejected e) None.

(** When a client calls the callback it was given: inside the call that
    received it, or in a later turn of the event loop. *)
Inductive Dispatch := Immediate | Deferred.

(** The connected client: the entries of the database with their [PX]
    time to live, and the error with which it answers, if it fails. *)
Record Client := MkClient {
  entries : gmap string (string * Z);
  failure : option Error;
  dispatch : Dispatch
}.

(** The fields of a cache instance. *)
Record t := Cache {
  clientType : ClientType;
  redisMajorVersion : option Z;
  client : Client
}.

Definition isRedis5OrHigher (this : t) : bool :=
  if decide (clientType this ≠ redis) then false
  else match redisMajorVersion this with
       | Some v => bool_decide (5 ≤ v)
       | None => false
       end.

(** Truthiness of a value that is a string or undefined. *)
Definition truthy (s : option string) : bool :=
  match s with
  | Some s => negb (String.eqb s "")
  | None => false
  end.

(** [options.identifier || options.query] *)
Definition keyOf (options : QueryResultCacheOptions) : option string :=
  if truthy (identifier options) then identifier options else query options.

(** What the server answers to [GET key]: [err], or the value or null. *)
Definition getReply (c : Client) (key : string) : Error + option string :=
  match failure c with
  | Some err => inl err
  | None => inr (fst <$> entries c !! key)
  end.

(** [result ? JSON.parse(result) : undefined], which throws when
    [JSON.parse] does. *)
Definition parseResult (result : option string) : Error + option JSON.value :=
  match result with
  | Some text =>
      if truthy (Some text) then
        match JSON.parse text with
        | Some v => inr (Some v)
        | None => inl SyntaxError
        end
      else inr None
  | None => inr None
  end.

(** What a callback does when the client calls it. *)
Inductive reaction (A : Type) : Type :=
  | CallsOk (a : A)
  | CallsFail (e : Error)
  | Throws (e : Error).
Arguments CallsOk {A} a.
Arguments CallsFail {A} e.
Arguments Throws {A} e.

(** [new Promise((ok, fail) => client.command(..., callback))]: an
    exception of a callback called inside the executor rejects the promise;
    one of a callback called later reaches nobody and the promise stays
    pending. *)
Definition newPromise {A} (d : Dispatch) (r : reaction A) : outcome A :=
  match r with
  | CallsOk a => resolve a
  | CallsFail e => reject e
  | Throws e =>
      match d with
      | Immediate => reject e
      | Deferred => Outcome Pending (Some e)
      end
  end.

(** [promise.then(f)] where [f] may throw. *)
Definition andThen {A B} (reply : Error + A) (f : A → Error + B) : outcome B :=
  match reply with
  | inl err => reject err
  | inr a => match f a with
             | inl e => reject e
             | inr b => resolve b
             end
  end.

(** The callback [(err, result) => { if (err) return fail(err);
    ok(result ? JSON.parse(result) : undefined) }]. *)
Definition getCallback (reply : Error + option string) : reaction (option JSON.value) :=
  match reply with
  | inl err => CallsFail err
  | inr result =>
      match parseResult result with
      | inl e => Throws e
      | inr v => CallsOk v
      end
  end.

Definition getFromCache (this : t) (options : QueryResultCacheOptions)
    : outcome (option JSON.value) :=
  match keyOf options with
  | Some key =>
      if negb (truthy (Some key)) then resolve None
      else if isRedis5OrHigher this then
        andThen (getReply (client this) key) parseResult
      else
        newPromise (dispatch (client this)) (getCallback (getReply (client this) key))
  | None => resolve None
  end.

Section Store.
(** [JSON.stringify(options)]: the text depends on the order in which the
    caller created the properties of [options]. *)
Variable stringify : QueryResultCacheOptions → string.

(** [SET key value PX duration] on the server. *)
Definition setEntry (c : Client) (key value : string) (px : Z) : Client :=
  MkClient (<[key := (value, px)]> (entries c)) (failure c) (dispatch c).

(** [storeInCache(options, savedCache)]: the cache after the call and the
    promise returned. Both client generations are given the same key, value
    and duration; the callback [(err, result) => { if (err) return
    fail(err); ok() }] does not throw. *)
Definition storeInCache (this : t) (options savedCache : QueryResultCacheOptions)
    : t * outcome unit :=
  match keyOf options with
  | Some key =>
      if negb (truthy (Some key)) then (this, resolve tt)
      else
        let value := stringify options in
        let duration := duration options in
        match failure (client this) with
        | Some err =>
            (this,
             if isRedis5OrHigher this then reject err
             else newPromise (dispatch (client this)) (CallsFail err))
        | None =>
            (Cache (clientType this) (redisMajorVersion this)
                   (setEntry (client this) key value duration),
             if isRedis5OrHigher this then resolve tt
             else newPromise (dispatch (client this)) (CallsOk tt))
        end
  | None => (this, resolve tt)
  end.
End Store.

(** [isExpired(savedCache)]: [savedCache.time! + savedCache.duration <
    Date.now()], with [now] the value of [Date.now()]; times are whole
    milliseconds. When [time] is undefined the sum is NaN, and a comparison
    with NaN is false. *)
Definition isExpired (savedCache : QueryResultCacheOptions) (now : Z) : bool :=
  match time savedCache with
  | Some t => bool_decide (t + duration savedCache < now)
  | None => false
  end.

(** [FLUSHDB] on the server. *)
Definition flushEntries (c : Client) : Client :=
  MkClient ∅ (failure c) (dispatch c).

(** [clear()]: the cache after the call and the promise returned. The
    Redis 5 client is awaited; the older one is given the callback
    [(err, result) => { if (err) return fail(err); ok() }]. *)
Definition clear (this : t) : t * outcome unit :=
  match failure (client this) with
  | Some err =>
      (this,
       if isRedis5OrHigher this then reject err
       else newPromise (dispatch (client this)) (CallsFail err))
  | None =>
      (Cache (clientType this) (redisMajorVersion this) (flushEntries (client this)),
       if isRedis5OrHigher this then resolve tt
       else newPromise (dispatch (client this)) (CallsOk tt))
  end.

(** [DEL key] on the server. *)
Definition delEntry (c : Client) (key : string) : Client :=
  MkClient (base.delete key (entries c)) (failure c) (dispatch c).

(** [deleteKey(key)], with the same two ways to call the client. *)
Definition deleteKey (this : t) (key : string) : t * outcome unit :=
  match failure (client this) with
  | Some err =>
      (this,
       if isRedis5OrHigher this then reject err
       else newPromise (dispatch (client this)) (CallsFail err))
  | None =>
      (Cache (clientType this) (redisMajorVersion this) (delEntry (client this) key),
       if isRedis5OrHigher this then resolve tt
       else newPromise (dispatch (client this)) (CallsOk tt))
  end.

(** [Promise.all(promises)]: rejected with the first rejection, fulfilled
    when every promise is, and pending otherwise. *)
Fixpoint promiseAll (promises : list (promise unit)) : promise unit :=
  match promises with
  | [] => Fulfilled tt
  | Fulfilled _ :: promises' => promiseAll promises'
  | Rejected e :: _ => Rejected e
  | Pending :: promises' =>
      match promiseAll promises' with
      | Rejected e => Rejected e
      | _ => Pending
      end
  end.

(** [remove(identifiers)]: [identifiers.map] calls [deleteKey] on each
    identifier in turn, and the promises are awaited together. *)
Definition remove (this : t) (identifiers : list string) : t * outcome unit :=
  let '(this', promises) :=
    foldl (λ '(this, promises) identifier,
             let '(this', p) := deleteKey this identifier in
             (this', promises ++ [p]))
          (this, []) identifiers in
  (this', Outcome (promiseAll (settled <$> promises)) (head (omap uncaught promises))).

End RedisQueryResultCache.

(** ** Concrete worlds used to run the sorter and the cache *)

Module Scenarios.

(** A store of metadatas, and one of subjects, given as tables. *)
Definition metadataTable (table : list EntityMetadata) (m : MetadataRef)
    : EntityMetadata :=
  default (Metadata "" [] []) (table !! m).

Definition subjectTable (table : list Subject) (s : SubjectRef) : Subject :=
  default (MkSubject 0%nat None None) (table !! s).

(** Subject [s] of metadata [s], with an entity. *)
Definition oneEach : SubjectRef → Subject :=
  λ s, MkSubject s (Some s) None.

(** Entity [C] with one non-nullable relation to itself. *)
Definition selfReferencing : MetadataRef → EntityMetadata :=
  metadataTable [Metadata "C" ["C"] [Relation false 0%nat]].

(** Entity [A] with a non-nullable relation to [B]; [B] without relation. *)
Definition dependency : MetadataRef → EntityMetadata :=
  metadataTable [Metadata "A" ["A"] [Relation false 1%nat];
                 Metadata "B" ["B"] []].


(** [A] and [B] with a non-nullable relation to each other. *)
Definition mutual : MetadataRef → EntityMetadata :=
  metadataTable [Metadata "A" ["A"] [Relation false 1%nat];
                 Metadata "B" ["B"] [Relation false 0%nat]].

(** [Derived extends Base]; [Base] has one relation to [Dep], nullable or
    not; [Derived] and [Dep] have no relation with a join column. *)
Definition inheritance (nullable : bool) : MetadataRef → EntityMetadata :=
  metadataTable [Metadata "Base" ["Base"] [Relation nullable 2%nat];
                 Metadata "Derived" ["Derived"; "Base"] [];
                 Metadata "Dep" ["Dep"] []].

(** The same, where [Derived] carries the relation of [Base] as its
    own. *)
Definition inheritedRelation (nullable : bool) : MetadataRef → EntityMetadata :=
  metadataTable [Metadata "Base" ["Base"] [Relation nullable 2%nat];
                 Metadata "Derived" ["Derived"; "Base"] [Relation nullable 2%nat];
                 Metadata "Dep" ["Dep"] []].

(** Subject 0 is a [Derived], subject 1 a [Base], subject 2 a [Dep]. *)
Definition inheritanceSubjects : SubjectRef → Subject :=
  subjectTable [MkSubject 1%nat (Some 0%nat) None;
                MkSubject 0%nat (Some 1%nat) None;
                MkSubject 2%nat (Some 2%nat) None].

(** Subjects 0 and 2 are owned, subjects 1 and 3 are junction subjects;
    all are of metadata 1 of [dependency]. *)
Definition interleaved : SubjectRef → Subject :=
  subjectTable [MkSubject 1%nat (Some 0%nat) None;
                MkSubject 1%nat None None;
                MkSubject 1%nat None (Some 2%nat);
                MkSubject 1%nat None None].

(** A cache on a Redis 5 client (promises), and one on an older client
    (callbacks), over the given entries; the server does not fail. *)
Definition promiseCache (entries : gmap string (string * Z)) : RedisQueryResultCache.t :=
  RedisQueryResultCache.Cache RedisQueryResultCache.redis (Some 5)
    (RedisQueryResultCache.MkClient entries None RedisQueryResultCache.Deferred).

Definition callbackCache (d : RedisQueryResultCache.Dispatch)
    (entries : gmap string (string * Z)) : RedisQueryResultCache.t :=
  RedisQueryResultCache.Cache RedisQueryResultCache.redis (Some 3)
    (RedisQueryResultCache.MkClient entries None d).

(** Options that carry a query text only. *)
Definition byQuery (q : string) : RedisQueryResultCache.QueryResultCacheOptions :=
  RedisQueryResultCache.Options None (Some q) None 0 None.

(** The options stored under identifier [id1], with query text [Q2]. *)
Definition storedUnderId1 : RedisQueryResultCache.QueryResultCacheOptions :=
  RedisQueryResultCache.Options (Some "id1") (Some "Q2") (Some 1000) 60000
    (Some (JSON.Array [JSON.Number "1"])).

(** [JSON.stringify] of an options object whose properties were created
    in the order identifier, query, time, duration, result and whose
    strings need no escape. *)
Definition stringifyOptions (o : RedisQueryResultCache.QueryResultCacheOptions) : string :=
  let decimal (z : Z) := NilZero.string_of_int (Z.to_int z) in
  JSON.stringify (JSON.Object (omap id
    [ (λ i, ("identifier", JSON.Str i)) <$> RedisQueryResultCache.identifier o;
      (λ q, ("query", JSON.Str q)) <$> RedisQueryResultCache.query o;
      (λ t, ("time", JSON.Number (decimal t))) <$> RedisQueryResultCache.time o;
      Some ("duration", JSON.Number (decimal (RedisQueryResultCache.duration o)));
      (λ r, ("result", r)) <$> RedisQueryResultCache.result o ])).

End Scenarios.

(** * Facts *)

(** ** Facts about the array primitives *)

Module JSFacts.
Import JS.

Section Facts.
Context {A : Type} `{EqDecision A}.
Implicit Types (l : list A) (x y : A).

Lemma indexOf_lower l x : -1 ≤ indexOf l x.
Proof.
  induction l as [|y l IH]; simpl; [lia|].
  repeat case_decide; lia.
Qed.

Lemma indexOf_absent l x : indexOf l x < 0 ↔ x ∉ l.
Proof.
  induction l as [|y l IH]; simpl.
  - split; [intros _; apply not_elem_of_nil | lia].
  - rewrite not_elem_of_cons. pose proof (indexOf_lower l x).
    destruct (decide (y = x)) as [->|Hne].
    + split; [lia | tauto].
    + destruct (decide (indexOf l x < 0)) as [Hlt|Hge].
      * split; [intros _; split; [congruence | by apply IH] | lia].
      * split; [lia | intros [_ Hout]; apply IH in Hout; lia].
Qed.

Lemma indexOf_absent_eq l x : indexOf l x = -1 ↔ x ∉ l.
Proof.
  rewrite <- indexOf_absent. pose proof (indexOf_lower l x). lia.
Qed.

Lemma indexOf_present l x : 0 ≤ indexOf l x ↔ x ∈ l.
Proof.
  destruct (decide (x ∈ l)) as [Hin|Hin]; split; intros; try done.
  - destruct (decide (indexOf l x < 0)) as [Hlt|]; [|lia].
    apply indexOf_absent in Hlt. done.
  - apply indexOf_absent in Hin. lia.
Qed.

Lemma indexOf_middle pre l x :
  x ∉ pre → indexOf (pre ++ x :: l) x = Z.of_nat (length pre).
Proof.
  induction pre as [|y pre IH]; simpl; intros Hpre.
  - case_decide; [done | congruence].
  - apply not_elem_of_cons in Hpre as [Hne Hpre].
    rewrite IH by done. repeat case_decide; try congruence; lia.
Qed.

Lemma indexOf_lookup l x :
  x ∈ l → l !! Z.to_nat (indexOf l x) = Some x.
Proof.
  induction l as [|y l IH]; simpl; intros Hin.
  - by apply elem_of_nil in Hin.
  - destruct (decide (y = x)) as [->|Hne]; [done|].
    apply elem_of_cons in Hin as [->|Hin]; [done|].
    pose proof (proj2 (indexOf_present l x) Hin).
    case_decide; [lia|].
    replace (Z.to_nat (1 + indexOf l x)) with (S (Z.to_nat (indexOf l x))) by lia.
    by apply IH.
Qed.

Lemma indexOf_upper l x : indexOf l x < Z.of_nat (length l).
Proof.
  induction l as [|y l IH]; simpl; [lia|].
  repeat case_decide; lia.
Qed.

Lemma indexOf_inj l x y :
  x ∈ l → indexOf l x = indexOf l y → x = y.
Proof.
  intros Hx Heq. assert (Hy : y ∈ l).
  { apply indexOf_present. rewrite <- Heq. by apply indexOf_present. }
  apply indexOf_lookup in Hx, Hy. rewrite Heq in Hx. congruence.
Qed.

(** Removing, one after the other, the elements that a filter selected
    leaves the elements the filter rejected. *)
Lemma splice1_indexOf_middle pre l x :
  x ∉ pre → splice1 (pre ++ x :: l) (indexOf (pre ++ x :: l) x) = pre ++ l.
Proof.
  intros Hpre. rewrite indexOf_middle by done. unfold splice1.
  case_decide; [lia|]. rewrite length_app. simpl.
  rewrite Z.min_l by lia. rewrite Nat2Z.id. apply delete_middle.
Qed.
End Facts.

End JSFacts.

(** ** Correctness of [toposort] *)

Module ToposortFacts.
Import JS JSFacts Toposort.

Section Nodes.
Context {A : Type} `{EqDecision A}.
Implicit Types (edges : list (A * A)) (res : list A).

Lemma addNode_elem res x y : y ∈ addNode res x ↔ y ∈ res ∨ y = x.
Proof.
  unfold addNode. case_decide as Hd.
  - rewrite elem_of_app, list_elem_of_singleton. tauto.
  - split; [tauto|]. intros [?| ->]; [done|].
    apply indexOf_present. lia.
Qed.

Lemma addNode_NoDup res x : NoDup res → NoDup (addNode res x).
Proof.
  unfold addNode. intros Hnd. case_decide as Hd; [|done].
  apply indexOf_absent in Hd. apply NoDup_app. split_and!; [done| |apply NoDup_singleton].
  intros y Hy ->%list_elem_of_singleton. done.
Qed.

Lemma uniqueNodes_unfold edges :
  uniqueNodes edges = foldl (λ res e, addNode (addNode res e.1) e.2) [] edges.
Proof. reflexivity. Qed.

Lemma foldl_addNode_elem edges res y :
  y ∈ foldl (λ res (e : A * A), addNode (addNode res e.1) e.2) res edges
  ↔ y ∈ res ∨ ∃ e, e ∈ edges ∧ (y = e.1 ∨ y = e.2).
Proof.
  revert res. induction edges as [|e edges IH]; intros res; simpl.
  - split; [tauto|]. intros [?|(e & He & _)]; [done|]. by apply elem_of_nil in He.
  - rewrite IH, !addNode_elem. split.
    + intros [[[?|?]|?]|(e' & He' & ?)].
      * by left.
      * right. exists e. split; [apply elem_of_cons; tauto | tauto].
      * right. exists e. split; [apply elem_of_cons; tauto | tauto].
      * right. exists e'. split; [apply elem_of_cons; tauto | done].
    + intros [?|(e' & [->|He']%elem_of_cons & Hy)]; [tauto | tauto | eauto].
Qed.

Lemma uniqueNodes_elem edges y :
  y ∈ uniqueNodes edges ↔ ∃ e, e ∈ edges ∧ (y = e.1 ∨ y = e.2).
Proof.
  rewrite uniqueNodes_unfold, foldl_addNode_elem. split; [|eauto].
  intros [Hy|?]; [|done]. by apply elem_of_nil in Hy.
Qed.

Lemma uniqueNodes_NoDup edges : NoDup (uniqueNodes edges).
Proof.
  rewrite uniqueNodes_unfold. generalize (NoDup_nil_2 (A:=A)).
  generalize (@nil A). induction edges as [|e edges IH]; intros res Hres; simpl.
  - done.
  - apply IH. by do 2 apply addNode_NoDup.
Qed.
End Nodes.

Section Traversal.
Context {A : Type} `{EqDecision A}.
Variable edges : list (A * A).
Local Abbreviation nodes := (uniqueNodes edges).
Implicit Types (preds l goal : list A) (st : locals (A:=A)).

Lemma store_fill (c : Z) l (node : A) :
  1 ≤ c →
  store (replicate (Z.to_nat c) None ++ (Some <$> l)) (c - 1) node
  = replicate (Z.to_nat (c - 1)) None ++ (Some <$> node :: l).
Proof.
  intros Hc. unfold store. case_decide; [|lia].
  case_decide as Hlen; [|rewrite length_app, length_replicate in Hlen; lia].
  replace (Z.to_nat c) with (S (Z.to_nat (c - 1))) by lia.
  rewrite replicate_S_end, <- (assoc_L (++)). simpl.
  rewrite insert_app_r_alt by (rewrite length_replicate; lia).
  rewrite length_replicate, Nat.sub_diag. done.
Qed.

Lemma Inv_length preds l st :
  Inv edges preds l st → (length preds + length l ≤ length nodes)%nat.
Proof.
  intros (_ & _ & Hnd & Hsub & _). rewrite <- length_app.
  apply submseteq_length, NoDup_submseteq; done.
Qed.

Lemma post_mono preds l goal goal' r :
  (∀ x, x ∈ goal' → x ∈ goal) → post edges preds l goal r → post edges preds l goal' r.
Proof.
  intros Hg. destruct r as [st'|e|]; simpl; [|done|done].
  intros (new & HI & Hin). exists new. split; [done|]. auto.
Qed.

(** A loop whose body keeps the invariant keeps it. *)
Lemma forM_post {X} (body : X → locals → result (TypeORMError A) locals)
    (key : X → A) preds (xs : list X) :
  (∀ x l st, x ∈ xs → Inv edges preds l st → post edges preds l [key x] (body x st)) →
  ∀ l st, Inv edges preds l st → post edges preds l (key <$> xs) (forM body xs st).
Proof.
  induction xs as [|x xs IH]; intros Hbody l st HI; simpl.
  - exists []. split; [done|]. intros y Hy. by apply elem_of_nil in Hy.
  - pose proof (Hbody x l st ltac:(apply list_elem_of_here) HI) as Hx.
    destruct (body x st) as [st1|e|]; simpl in *; [|done|done].
    destruct Hx as (new1 & HI1 & Hin1).
    assert (Hrest : ∀ y l st, y ∈ xs → Inv edges preds l st →
                     post edges preds l [key y] (body y st)).
    { intros y l' st' Hy. apply Hbody. by apply list_elem_of_further. }
    pose proof (IH Hrest _ _ HI1) as Hxs.
    destruct (forM body xs st1) as [st2|e|]; simpl in *; [|done|done].
    destruct Hxs as (new2 & HI2 & Hin2).
    exists (new2 ++ new1). rewrite <- (assoc_L (++)). split; [done|].
    intros y [->|Hy]%elem_of_cons.
    + apply elem_of_app. right. apply Hin1, list_elem_of_here.
    + by apply Hin2.
Qed.

Lemma snoc_app preds (node : A) l : (preds ++ [node]) ++ l = preds ++ node :: l.
Proof. by rewrite <- (assoc_L (++)). Qed.

Lemma NoDup_enter preds (node : A) l :
  NoDup (preds ++ l) → node ∉ preds ++ l → NoDup ((preds ++ [node]) ++ l).
Proof.
  intros Hnd Hout. rewrite snoc_app.
  apply (NoDup_Permutation_proper (node :: preds ++ l)); [|by apply NoDup_cons].
  apply Permutation_middle.
Qed.

(** Entering a node that is neither on the path nor placed. *)
Lemma Inv_enter preds l st (node : A) :
  Inv edges preds l st → node ∈ nodes → node ∉ preds ++ l →
  Inv edges (preds ++ [node]) l
      (Locals (cursor st) (sorted st) ({[ indexOf nodes node ]} ∪ visited st)).
Proof.
  intros (Hs & Hc & Hnd & Hsub & Hv & Ht) Hnode Hout.
  split_and!; simpl; try done.
  - by apply NoDup_enter.
  - intros x. rewrite snoc_app, elem_of_app, elem_of_cons.
    intros [?|[->|?]]; [|done|]; apply Hsub, elem_of_app; tauto.
  - intros i. rewrite elem_of_union, elem_of_singleton, Hv. split.
    + intros [->|(x & Hx & ->)].
      * exists node. split; [|done]. rewrite snoc_app, elem_of_app, elem_of_cons. tauto.
      * exists x. split; [|done]. revert Hx.
        rewrite snoc_app, !elem_of_app, elem_of_cons. tauto.
    + intros (x & Hx & ->). revert Hx.
      rewrite snoc_app, elem_of_app, elem_of_cons. intros [?|[->|?]]; [|by left|].
      * right. exists x. rewrite elem_of_app. tauto.
      * right. exists x. rewrite elem_of_app. tauto.
Qed.

(** Leaving a node once everything it depends on is placed:
    [sorted[--cursor] = node]. *)
Lemma Inv_leave preds l st (node : A) :
  Inv edges (preds ++ [node]) l st →
  (∀ v, dependsOn edges node v → v ∈ l) →
  Inv edges preds (node :: l)
      (Locals (cursor st - 1) (store (sorted st) (cursor st - 1) node) (visited st)).
Proof.
  intros HI Hdeps. pose proof (Inv_length _ _ _ HI) as Hlen.
  destruct HI as (Hs & Hc & Hnd & Hsub & Hv & Ht).
  rewrite length_app in Hlen. simpl in Hlen.
  split_and!; simpl.
  - rewrite Hs. apply store_fill. lia.
  - lia.
  - by rewrite <- snoc_app.
  - intros x. rewrite <- snoc_app. apply Hsub.
  - intros i. rewrite <- snoc_app. apply Hv.
  - done.
Qed.

(** [visit], called on a node that the path reaches, with enough fuel for
    the nodes not yet on the path. *)
Lemma visit_post fuel : ∀ (node : A) preds l st,
  Inv edges preds l st →
  node ∈ nodes →
  (∀ p, p ∈ preds → tc (dependsOn edges) p node) →
  (length nodes < fuel + length preds)%nat →
  post edges preds l [node]
       (visit edges nodes fuel node (indexOf nodes node) preds st).
Proof.
  induction fuel as [|fuel IH]; intros node preds l st HI Hnode Hpath Hfuel.
  { pose proof (Inv_length _ _ _ HI). simpl in *. lia. }
  simpl. case_decide as Hcyc.
  { exists node. split; [done|]. apply Hpath. by apply indexOf_present. }
  case_decide as Hunk.
  { by apply indexOf_absent_eq in Hunk. }
  assert (Hnp : node ∉ preds).
  { intros Hin. apply indexOf_present in Hin. lia. }
  case_decide as Hvis.
  { exists []. split; [done|]. intros x ->%list_elem_of_singleton. simpl.
    destruct HI as (_ & _ & _ & _ & Hv & _).
    apply Hv in Hvis as (x & Hx & Heq).
    apply indexOf_inj in Heq; [subst x|done].
    by apply elem_of_app in Hx as [|]. }
  assert (Hout : node ∉ preds ++ l).
  { intros Hin. apply Hvis. destruct HI as (_ & _ & _ & _ & Hv & _).
    apply Hv. by exists node. }
  pose proof (Inv_enter _ _ _ _ HI Hnode Hout) as HI1.
  set (st1 := Locals (cursor st) (sorted st) _) in *.
  set (outgoing := filter (λ e : A * A, e.1 = node) edges).
  assert (Hloop : post edges (preds ++ [node]) l (snd <$> outgoing)
            (if decide (length outgoing ≠ 0%nat) then
               forM (λ (e : A * A) st,
                       visit edges nodes fuel e.2 (indexOf nodes e.2) (preds ++ [node]) st)
                    (reverse outgoing) st1
             else Ok st1)).
  { case_decide as Hlen.
    - eapply post_mono; [|apply (forM_post _ snd); [|exact HI1]].
      + intros x. rewrite fmap_reverse, elem_of_reverse. done.
      + intros e l' st' He HI'.
        apply elem_of_reverse, list_elem_of_filter in He as [He1 He].
        apply IH; [done| | |].
        * apply uniqueNodes_elem. exists e. tauto.
        * intros p [Hp| ->%list_elem_of_singleton]%elem_of_app.
          -- eapply tc_r; [by apply Hpath|]. unfold dependsOn.
             by rewrite <- He1, <- surjective_pairing.
          -- apply tc_once. unfold dependsOn.
             by rewrite <- He1, <- surjective_pairing.
        * rewrite length_app. simpl. lia.
    - exists []. split; [done|]. intros x.
      destruct outgoing; [|simpl in Hlen; lia].
      intros Hx. by apply elem_of_nil in Hx. }
  destruct (if decide (length outgoing ≠ 0%nat) then _ else _) as [st2|e|];
    simpl in *; [|done|done].
  destruct Hloop as (new & HI2 & Hchildren).
  exists (node :: new). split.
  - apply Inv_leave; [done|]. intros v Hv. apply Hchildren.
    apply list_elem_of_fmap. exists (node, v). split; [done|].
    apply list_elem_of_filter. done.
  - intros x ->%list_elem_of_singleton. apply list_elem_of_here.
Qed.

Lemma indexOf_NoDup_lookup (l : list A) (k : nat) x :
  NoDup l → l !! k = Some x → indexOf l x = Z.of_nat k.
Proof.
  intros Hnd Hk. assert (Hin : x ∈ l) by (apply list_elem_of_lookup; eauto).
  pose proof (indexOf_lookup _ _ Hin) as Hi.
  pose proof (NoDup_lookup _ _ _ _ Hnd Hi Hk).
  apply indexOf_present in Hin. lia.
Qed.

Lemma Inv_start :
  Inv edges [] [] (Locals (Z.of_nat (length nodes)) (replicate (length nodes) None) ∅).
Proof.
  split_and!; simpl.
  - by rewrite Nat2Z.id, app_nil_r.
  - lia.
  - apply NoDup_nil_2.
  - intros x Hx. by apply elem_of_nil in Hx.
  - intros i. split; [set_solver|]. intros (x & Hx & _). by apply elem_of_nil in Hx.
  - done.
Qed.

(** [toposort] never exhausts its recursion bound; when it returns, the
    array has no hole and lists every node once, each before the nodes it
    depends on; when it throws, the error names a node on a cycle. *)
Theorem toposort_spec :
  match toposort edges with
  | Ok s => ∃ l, s = Some <$> l ∧ l ≡ₚ nodes ∧ topological edges l
  | Throw e => ∃ n, e = CyclicDependency n ∧ onCycle edges n
  | OutOfFuel => False
  end.
Proof.
  unfold toposort.
  set (roots := reverse (imap (λ (i : nat) (node : A), (Z.of_nat i, node)) nodes)).
  set (body := λ '(i, node) st, if decide (i ∈ visited st) then Ok st
                 else visit edges nodes (S (length nodes)) node i [] st).
  assert (Hroots : ∀ x, x ∈ roots ↔ ∃ k, x = (Z.of_nat k, x.2) ∧ nodes !! k = Some x.2).
  { intros [i node]. unfold roots. rewrite elem_of_reverse, elem_of_lookup_imap.
    simpl. split; intros (k & Hk); exists k.
    - destruct Hk as (y & Heq & Hy). by simplify_eq.
    - destruct Hk as [Heq Hk]. exists node. by simplify_eq. }
  assert (Hbody : ∀ x l st, x ∈ roots → Inv edges [] l st →
                    post edges [] l [x.2] (body x st)).
  { intros [i node] l st (k & Heq & Hk)%Hroots HI. cbn [fst snd] in *.
    injection Heq as ->. unfold body.
    rewrite <- (indexOf_NoDup_lookup nodes k node (uniqueNodes_NoDup edges) Hk).
    assert (Hnode : node ∈ nodes) by (apply list_elem_of_lookup; eauto).
    case_decide as Hvis.
    - exists []. split; [done|]. intros x ->%list_elem_of_singleton.
      destruct HI as (_ & _ & _ & _ & Hv & _).
      apply Hv in Hvis as (x & Hx & Hi).
      apply indexOf_inj in Hi; [by subst x|done].
    - apply visit_post; [done|done| |cbn [length]; lia].
      intros p Hp. by apply elem_of_nil in Hp. }
  pose proof (forM_post body snd [] roots Hbody) as Hloop.
  specialize (Hloop _ _ Inv_start).
  destruct (forM body roots _) as [st'|e|]; simpl in *; [|done|done].
  destruct Hloop as (new & HI & Hall). rewrite app_nil_r in *.
  destruct HI as (Hs & Hc & Hnd & Hsub & _ & Ht). simpl in *.
  assert (Hperm : new ≡ₚ nodes).
  { apply NoDup_Permutation; [done|apply uniqueNodes_NoDup|].
    intros x. split; [apply Hsub|]. intros Hx.
    apply list_elem_of_lookup in Hx as [k Hk]. apply Hall.
    apply list_elem_of_fmap. exists (Z.of_nat k, x). split; [done|].
    apply Hroots. by exists k. }
  exists new. split_and!; [|done|done].
  rewrite Hs, Hc, (Permutation_length Hperm), Z.sub_diag. done.
Qed.

Lemma topological_closed l (x y : A) :
  topological edges l → x ∈ l → dependsOn edges x y → y ∈ l.
Proof.
  induction l as [|u l IH]; simpl; intros Ht Hx Hxy.
  - by apply elem_of_nil in Hx.
  - destruct Ht as [Hu Ht].
    apply elem_of_cons in Hx as [->|Hx]; apply elem_of_cons; right; eauto.
Qed.

Lemma topological_closed_rtc l (x y : A) :
  topological edges l → x ∈ l → rtc (dependsOn edges) x y → y ∈ l.
Proof.
  intros Ht Hx Hxy. induction Hxy as [|x y z Hxy _ IH]; [done|].
  eapply IH, topological_closed; done.
Qed.

Lemma topological_split l1 (u : A) l2 v :
  topological edges (l1 ++ u :: l2) → dependsOn edges u v → v ∈ l2.
Proof.
  induction l1 as [|w l1 IH]; simpl; intros [Hu Ht] Huv; eauto.
Qed.

Lemma topological_no_cycle l (n : A) :
  topological edges l → NoDup l → n ∈ l → ¬ onCycle edges n.
Proof.
  unfold onCycle. induction l as [|u l IH]; simpl; intros Ht Hnd Hn Hcyc.
  - by apply elem_of_nil in Hn.
  - destruct Ht as [Hu Ht]. apply NoDup_cons in Hnd as [Hul Hnd].
    apply elem_of_cons in Hn as [->|Hn]; [|by eapply IH].
    apply Hul. inversion Hcyc as [? ? Huv | ? v ? Huv Hvu]; subst.
    + by apply Hu.
    + eapply topological_closed_rtc; [done|by apply Hu|by apply tc_rtc].
Qed.

Lemma onCycle_node (n : A) : onCycle edges n → n ∈ nodes.
Proof.
  unfold onCycle. intros Hcyc. apply uniqueNodes_elem.
  inversion Hcyc as [? ? Huv | ? v ? Huv _]; subst.
  - exists (n, n). split; [done|by left].
  - exists (n, v). split; [done|by left].
Qed.

(** A graph with a cycle makes [toposort] throw, and the error names a
    node on a cycle. *)
Corollary toposort_cyclic (n : A) :
  onCycle edges n →
  ∃ m, toposort edges = Throw (CyclicDependency m) ∧ onCycle edges m.
Proof.
  intros Hcyc. pose proof toposort_spec as Hspec.
  destruct (toposort edges) as [s|e|]; [|by destruct Hspec as (m & -> & ?); eauto|done].
  exfalso. destruct Hspec as (l & _ & Hperm & Ht).
  eapply (topological_no_cycle l n); [done| | |done].
  - rewrite Hperm. apply uniqueNodes_NoDup.
  - rewrite Hperm. by apply onCycle_node.
Qed.

End Traversal.

End ToposortFacts.

(** ** The passes of [sort] *)

Module SorterFacts.
Import JS JSFacts Toposort ToposortFacts SubjectTopologicalSorter.

Section Passes.
Implicit Types (ws out : list SubjectRef).

Lemma removeAlreadySorted_filter_from (P : SubjectRef → Prop)
    `{!∀ s, Decision (P s)} pre ws :
  Forall (λ s, ¬ P s) pre →
  removeAlreadySorted (pre ++ ws) (filter P ws) = pre ++ filter (λ s, ¬ P s) ws.
Proof.
  revert pre. induction ws as [|x ws IH]; intros pre Hpre.
  - done.
  - destruct (decide (P x)) as [HP|HP].
    + rewrite (filter_cons_True P) by done.
      rewrite (filter_cons_False (λ s, ¬ P s)) by tauto.
      unfold removeAlreadySorted. simpl. rewrite splice1_indexOf_middle.
      * by apply IH.
      * intros Hin. rewrite Forall_forall in Hpre. by apply (Hpre x).
    + rewrite (filter_cons_False P) by done.
      rewrite (filter_cons_True (λ s, ¬ P s)) by done.
      rewrite (cons_middle x pre ws), (assoc_L (++)), IH.
      * by rewrite <- (assoc_L (++)).
      * apply Forall_app. split; [done|]. by apply Forall_singleton.
Qed.

(** Removing the subjects a filter selected from [this.subjects] leaves
    the others, in their order. *)
Lemma removeAlreadySorted_filter (P : SubjectRef → Prop) `{!∀ s, Decision (P s)} ws :
  removeAlreadySorted ws (filter P ws) = filter (λ s, ¬ P s) ws.
Proof. apply (removeAlreadySorted_filter_from P []). constructor. Qed.

Lemma pull_eq (P : SubjectRef → Prop) `{!∀ s, Decision (P s)} ws out :
  pull P (ws, out) = (filter (λ s, ¬ P s) ws, out ++ filter P ws).
Proof. unfold pull. by rewrite removeAlreadySorted_filter. Qed.

(** A [forEach] over sorted targets moves subjects from [this.subjects]
    to the end of [sortedSubjects] and loses none. *)
Lemma forEach_pull (Q : string → SubjectRef → Prop) `{!∀ t s, Decision (Q t s)}
    (targets : list (option string)) ws out :
  ∃ extra,
    (forEach targets (λ t, pull (Q t)) (ws, out)).2 = out ++ extra
    ∧ extra ++ (forEach targets (λ t, pull (Q t)) (ws, out)).1 ≡ₚ ws.
Proof.
  unfold forEach. revert ws out.
  induction targets as [|[t|] targets IH]; intros ws out; cbn [foldl].
  - exists []. by rewrite app_nil_r.
  - rewrite pull_eq.
    destruct (IH (filter (λ s, ¬ Q t s) ws) (out ++ filter (Q t) ws))
      as (extra & -> & Hperm).
    exists (filter (Q t) ws ++ extra). split; [by rewrite (assoc_L (++))|].
    rewrite <- (assoc_L (++)), Hperm. apply filter_app_complement.
  - apply IH.
Qed.
(** Rounds that select nothing leave the work state alone. *)
Lemma filter_none (P : SubjectRef → Prop) `{!∀ s, Decision (P s)} ws :
  (∀ s, s ∈ ws → ¬ P s) → filter P ws = [] ∧ filter (λ s, ¬ P s) ws = ws.
Proof.
  induction ws as [|x ws IH]; intros Hno; [done|].
  assert (Hx : ¬ P x) by apply Hno, list_elem_of_here.
  destruct IH as [IH1 IH2].
  { intros s Hs. by apply Hno, list_elem_of_further. }
  rewrite (filter_cons_False P), (filter_cons_True (λ s, ¬ P s)) by done.
  by rewrite IH1, IH2.
Qed.




Lemma forEach_app {S : Type} (xs ys : list (option string)) (f : string → S → S) (w : S) :
  forEach (xs ++ ys) f w = forEach ys f (forEach xs f w).
Proof. unfold forEach. apply foldl_app. Qed.


Lemma pull_ext (P Q : SubjectRef → Prop) `{!∀ s, Decision (P s)} `{!∀ s, Decision (Q s)} w :
  (∀ s, P s ↔ Q s) → pull P w = pull Q w.
Proof.
  intros HPQ. destruct w as [ws out]. rewrite !pull_eq. f_equal.
  - apply list_filter_iff. intros s. by rewrite HPQ.
  - f_equal. by apply list_filter_iff.
Qed.

Lemma forEach_pull_ext (P Q : string → SubjectRef → Prop)
    `{!∀ t s, Decision (P t s)} `{!∀ t s, Decision (Q t s)} targets w :
  (∀ t s, P t s ↔ Q t s) →
  forEach targets (λ t, pull (P t)) w = forEach targets (λ t, pull (Q t)) w.
Proof.
  intros HPQ. unfold forEach. revert w.
  induction targets as [|[t|] targets IH]; intros w; cbn [foldl]; [done| |done].
  rewrite (pull_ext (P t) (Q t)) by apply HPQ. apply IH.
Qed.

End Passes.

Section Metadata.
Variable metadataAt : MetadataRef → EntityMetadata.
Variable subjectAt : SubjectRef → Subject.
Implicit Types (subjects ws out : list SubjectRef) (this : t).

Local Abbreviation nameOf := (λ m : MetadataRef, targetName (metadataAt m)).
Local Abbreviation metaOf := (λ s : SubjectRef, metadata (subjectAt s)).

Lemma foldl_unique_elem subjects (acc : list MetadataRef) m :
  m ∈ foldl (λ metadatas subject,
               if decide (indexOf metadatas (metaOf subject) = -1)
               then metadatas ++ [metaOf subject] else metadatas) acc subjects
  ↔ m ∈ acc ∨ ∃ s, s ∈ subjects ∧ metaOf s = m.
Proof.
  revert acc. induction subjects as [|s subjects IH]; intros acc; simpl.
  - split; [tauto|]. intros [?|(s & Hs & _)]; [done|]. by apply elem_of_nil in Hs.
  - rewrite IH. clear IH.
    assert (Hacc : m ∈ (if decide (indexOf acc (metaOf s) = -1)
                        then acc ++ [metaOf s] else acc)
                   ↔ m ∈ acc ∨ metaOf s = m).
    { case_decide as Hd.
      - rewrite elem_of_app, list_elem_of_singleton. split; intros [?|?]; auto.
      - split; [tauto|]. intros [?|<-]; [done|].
        apply indexOf_present. pose proof (indexOf_lower acc (metaOf s)). lia. }
    rewrite Hacc. split.
    + intros [[?|?]|(s' & Hs' & ?)]; [tauto| |].
      * right. exists s. split; [apply list_elem_of_here|done].
      * right. exists s'. split; [by apply list_elem_of_further|done].
    + intros [?|(s' & Hs' & Hm)]; [tauto|].
      apply elem_of_cons in Hs' as [Heq|Hs'].
      * left. right. by rewrite <- Heq.
      * right. by exists s'.
Qed.

Lemma getUniqueMetadatas_elem subjects m :
  m ∈ getUniqueMetadatas subjectAt subjects ↔ ∃ s, s ∈ subjects ∧ metaOf s = m.
Proof.
  unfold getUniqueMetadatas. rewrite foldl_unique_elem. split; [|eauto].
  intros [Hm|?]; [|done]. by apply elem_of_nil in Hm.
Qed.

Lemma getUniqueMetadatas_nil subjects :
  length (getUniqueMetadatas subjectAt subjects) = 0%nat → subjects = [].
Proof.
  intros Hlen. destruct subjects as [|s subjects]; [done|].
  assert (Hin : metaOf s ∈ getUniqueMetadatas subjectAt (s :: subjects)).
  { apply getUniqueMetadatas_elem. exists s. split; [apply list_elem_of_here|done]. }
  destruct (getUniqueMetadatas subjectAt (s :: subjects)); [|done].
  by apply elem_of_nil in Hin.
Qed.

(** Membership in a dependency list built by the nested loops. *)
Lemma foldl_dependencies_elem
    (step : MetadataRef → list (string * string) → RelationMetadata → list (string * string))
    (P : MetadataRef → RelationMetadata → Prop) :
  (∀ m acc r e, e ∈ step m acc r ↔
      e ∈ acc ∨ (P m r ∧ e = (nameOf m, nameOf (inverseEntityMetadata r)))) →
  ∀ ms acc e,
    e ∈ foldl (λ dependencies m,
                 foldl (step m) dependencies (relationsWithJoinColumns (metadataAt m)))
              acc ms
    ↔ e ∈ acc ∨ ∃ m r, m ∈ ms ∧ r ∈ relationsWithJoinColumns (metadataAt m)
                       ∧ P m r ∧ e = (nameOf m, nameOf (inverseEntityMetadata r)).
Proof.
  intros Hstep.
  assert (Hinner : ∀ m rs acc e,
    e ∈ foldl (step m) acc rs
    ↔ e ∈ acc ∨ ∃ r, r ∈ rs ∧ P m r ∧ e = (nameOf m, nameOf (inverseEntityMetadata r))).
  { intros m rs. induction rs as [|r rs IH]; intros acc e; simpl.
    - split; [tauto|]. intros [?|(r & Hr & _)]; [done|]. by apply elem_of_nil in Hr.
    - rewrite IH, Hstep. split.
      + intros [[?|?]|(r' & Hr' & ?)]; [tauto| |].
        * right. exists r. split; [apply list_elem_of_here|done].
        * right. exists r'. split; [by apply list_elem_of_further|done].
      + intros [?|(r' & Hr' & HP)]; [tauto|].
        apply elem_of_cons in Hr' as [Heq|Hr'].
        * left. right. by rewrite <- Heq.
        * right. by exists r'. }
  induction ms as [|m ms IH]; intros acc e; simpl.
  - split; [tauto|]. intros [?|(m & r & Hm & _)]; [done|]. by apply elem_of_nil in Hm.
  - rewrite IH, Hinner. split.
    + intros [[?|(r & ? & ?)]|(m' & r & Hm' & ?)]; [tauto| |].
      * right. exists m, r. split; [apply list_elem_of_here|done].
      * right. exists m', r. split; [by apply list_elem_of_further|done].
    + intros [?|(m' & r & Hm' & Hr)]; [tauto|].
      apply elem_of_cons in Hm' as [Heq|Hm'].
      * left. right. exists r. by rewrite <- Heq.
      * right. by exists m', r.
Qed.

Lemma getNonNullableDependencies_elem this x y :
  (x, y) ∈ getNonNullableDependencies metadataAt this
  ↔ ∃ m r, m ∈ metadatas this ∧ r ∈ relationsWithJoinColumns (metadataAt m)
           ∧ isNullable r = false
           ∧ (x, y) = (nameOf m, nameOf (inverseEntityMetadata r)).
Proof.
  unfold getNonNullableDependencies.
  rewrite (foldl_dependencies_elem _ (λ _ r, isNullable r = false)).
  - split; [|eauto]. intros [Hnil|?]; [|done]. by apply elem_of_nil in Hnil.
  - intros m acc r e. destruct (isNullable r).
    + split; [tauto|]. intros [?|[? _]]; done.
    + rewrite elem_of_app, list_elem_of_singleton. tauto.
Qed.

Lemma getDependencies_elem this x y :
  (x, y) ∈ getDependencies metadataAt this
  ↔ ∃ m r, m ∈ metadatas this ∧ r ∈ relationsWithJoinColumns (metadataAt m)
           ∧ inverseEntityMetadata r ≠ m
           ∧ (x, y) = (nameOf m, nameOf (inverseEntityMetadata r)).
Proof.
  unfold getDependencies.
  rewrite (foldl_dependencies_elem _ (λ m r, inverseEntityMetadata r ≠ m)).
  - split; [|eauto]. intros [Hnil|?]; [|done]. by apply elem_of_nil in Hnil.
  - intros m acc r e. case_decide.
    + split; [tauto|]. intros [?|[? _]]; done.
    + rewrite elem_of_app, list_elem_of_singleton. tauto.
Qed.
(** The outcome of [sort] on a new sorter: the junction subjects first
    when deleting, then a rearrangement of the other subjects; or a cyclic
    dependency of one of the two graphs. *)
Lemma sort_outcome (input : list SubjectRef) direction :
  match sortSubjects metadataAt subjectAt input direction with
  | Ok res =>
      ∃ rest,
        res = (if decide (direction = delete)
               then filter (isJunction subjectAt) input else []) ++ rest
        ∧ rest ≡ₚ (if decide (direction = delete)
                   then filter (λ s, ¬ isJunction subjectAt s) input
                   else input)
  | Throw e =>
      ∃ n, e = CyclicDependency n
           ∧ (onCycle (getNonNullableDependencies metadataAt (new subjectAt input)) n
              ∨ onCycle (getDependencies metadataAt (new subjectAt input)) n)
  | OutOfFuel => False
  end.
Proof.
  unfold sortSubjects, sort. set (this := new subjectAt input).
  case_decide as Hempty.
  { apply getUniqueMetadatas_nil in Hempty. subst input. simpl.
    exists []. by case_decide. }
  change (subjects this) with input.
  set (w1 := if decide (direction = delete)
             then pull (isJunction subjectAt) (input, []) else (input, [])).
  assert (Hw1 : w1 = (if decide (direction = delete)
                      then filter (λ s, ¬ isJunction subjectAt s) input
                      else input,
                      if decide (direction = delete)
                      then filter (isJunction subjectAt) input else [])).
  { unfold w1. case_decide; [by rewrite pull_eq|done]. }
  clearbody w1.
  pose proof (toposort_spec (getNonNullableDependencies metadataAt this)) as Hnn.
  destruct (toposort (getNonNullableDependencies metadataAt this)) as [s1|e|];
    [|by destruct Hnn as (n & -> & ?); exists n; auto|done].
  set (targets1 := if decide (direction = insert) then reverse s1 else s1).
  destruct (forEach_pull (matchesTargetOrAncestor metadataAt subjectAt)
              targets1 w1.1 w1.2) as (extra1 & Hout1 & Hperm1).
  rewrite <- surjective_pairing in Hout1, Hperm1.
  set (w2 := forEach targets1 _ w1) in *. clearbody w2.
  pose proof (toposort_spec (getDependencies metadataAt this)) as Hall.
  destruct (toposort (getDependencies metadataAt this)) as [s2|e|];
    [|by destruct Hall as (n & -> & ?); exists n; auto|done].
  set (targets2 := if decide (direction = insert) then reverse s2 else s2).
  destruct (forEach_pull (matchesTarget metadataAt subjectAt)
              targets2 w2.1 w2.2) as (extra2 & Hout2 & Hperm2).
  rewrite <- surjective_pairing in Hout2, Hperm2.
  set (w3 := forEach targets2 _ w2) in *. clearbody w3.
  cbn [snd fst]. exists (extra1 ++ extra2 ++ w3.1).
  rewrite Hout2, Hout1, Hw1. cbn [snd fst]. split.
  - by rewrite <- !(assoc_L (++)).
  - rewrite Hperm2, Hperm1, Hw1. done.
Qed.
(** Without cycle in the two graphs, [sort] returns. *)
Corollary sort_acyclic_returns (input : list SubjectRef) direction :
  acyclic (getNonNullableDependencies metadataAt (new subjectAt input)) →
  acyclic (getDependencies metadataAt (new subjectAt input)) →
  ∃ res, sortSubjects metadataAt subjectAt input direction = Ok res.
Proof.
  intros Hnn Hall. pose proof (sort_outcome input direction) as Hout.
  destruct (sortSubjects metadataAt subjectAt input direction) as [res|e|];
    [by exists res| |done].
  destruct Hout as (n & _ & [Hn|Hn]); [by apply Hnn in Hn|by apply Hall in Hn].
Qed.

(** A non-nullable cycle among the metadatas of the subjects stops [sort]
    in the first pass, for both directions. *)
Lemma sort_on_non_nullable_cycle (input : list SubjectRef) direction n :
  input ≠ [] →
  onCycle (getNonNullableDependencies metadataAt (new subjectAt input)) n →
  ∃ m, sortSubjects metadataAt subjectAt input direction = Throw (CyclicDependency m)
       ∧ onCycle (getNonNullableDependencies metadataAt (new subjectAt input)) m.
Proof.
  intros Hne Hcyc. unfold sortSubjects, sort.
  case_decide as Hempty; [by apply getUniqueMetadatas_nil in Hempty|].
  destruct (toposort_cyclic _ _ Hcyc) as (m & -> & Hm). by exists m.
Qed.

(** [sort] reads [entity] and [databaseEntity] only when deleting. *)
Lemma getUniqueMetadatas_ext (subjectAt' : SubjectRef → Subject) (input : list SubjectRef) :
  (∀ s, metadata (subjectAt' s) = metadata (subjectAt s)) →
  getUniqueMetadatas subjectAt' input = getUniqueMetadatas subjectAt input.
Proof.
  intros Hmeta. unfold getUniqueMetadatas.
  assert (Hgen : ∀ acc,
    foldl (λ metadatas subject,
             if decide (indexOf metadatas (metadata (subjectAt' subject)) = -1)
             then metadatas ++ [metadata (subjectAt' subject)] else metadatas) acc input
    = foldl (λ metadatas subject,
               if decide (indexOf metadatas (metaOf subject) = -1)
               then metadatas ++ [metaOf subject] else metadatas) acc input).
  { induction input as [|s input IH]; intros acc; simpl; [done|].
    by rewrite Hmeta, IH. }
  apply Hgen.
Qed.

Lemma sort_insert_ext (subjectAt' : SubjectRef → Subject) (input : list SubjectRef) :
  (∀ s, metadata (subjectAt' s) = metadata (subjectAt s)) →
  sortSubjects metadataAt subjectAt' input insert
  = sortSubjects metadataAt subjectAt input insert.
Proof.
  intros Hmeta. unfold sortSubjects, sort, new.
  rewrite (getUniqueMetadatas_ext subjectAt') by done. cbn [metadatas subjects].
  case_decide; [done|].
  destruct (decide (insert = delete)) as [?|_]; [done|].
  unfold getNonNullableDependencies, getDependencies. cbn [metadatas].
  destruct (toposort _) as [s1|e|]; [|done|done].
  destruct (toposort _) as [s2|e|]; [|done|done].
  cbn [snd].
  rewrite (forEach_pull_ext (matchesTargetOrAncestor metadataAt subjectAt')
             (matchesTargetOrAncestor metadataAt subjectAt)).
  - rewrite (forEach_pull_ext (matchesTarget metadataAt subjectAt')
               (matchesTarget metadataAt subjectAt)); [done|].
    intros t s. unfold matchesTarget. by rewrite Hmeta.
  - intros t s. unfold matchesTargetOrAncestor. by rewrite Hmeta.
Qed.
End Metadata.

Section Rounds.
Implicit Types (ws out : list SubjectRef).

(** What a [forEach] over targets leaves in [this.subjects], and what it
    appends to [sortedSubjects]. *)
Lemma forEach_pull_members (Q : string → SubjectRef → Prop) `{!∀ t s, Decision (Q t s)}
    (ts : list string) ws out :
  (∀ s, s ∈ (forEach (Some <$> ts) (λ t, pull (Q t)) (ws, out)).1
        ↔ s ∈ ws ∧ ∀ t, t ∈ ts → ¬ Q t s)
  ∧ ∃ extra,
      (forEach (Some <$> ts) (λ t, pull (Q t)) (ws, out)).2 = out ++ extra
      ∧ ∀ s, s ∈ extra ↔ s ∈ ws ∧ ∃ t, t ∈ ts ∧ Q t s.
Proof.
  unfold forEach. revert ws out.
  induction ts as [|t ts IH]; intros ws out; cbn [fmap list_fmap foldl].
  - split.
    + intros s. split; [intros Hs; split; [done|]|by intros [? _]].
      intros t Ht. by apply elem_of_nil in Ht.
    + exists []. split; [by rewrite app_nil_r|]. intros s. split.
      * intros Hs. by apply elem_of_nil in Hs.
      * intros (_ & t & Ht & _). by apply elem_of_nil in Ht.
  - rewrite pull_eq.
    destruct (IH (filter (λ s, ¬ Q t s) ws) (out ++ filter (Q t) ws))
      as (Hleft & extra & -> & Hextra).
    split.
    + intros s. rewrite Hleft, list_elem_of_filter. split.
      * intros ((HQ & Hs) & Hts). split; [done|].
        intros t' [->|Ht']%elem_of_cons; auto.
      * intros (Hs & Hts). split_and!; [|done|].
        -- apply Hts, list_elem_of_here.
        -- intros t' Ht'. by apply Hts, list_elem_of_further.
    + exists (filter (Q t) ws ++ extra). split; [by rewrite (assoc_L (++))|].
      intros s. rewrite elem_of_app, Hextra, !list_elem_of_filter. split.
      * intros [[HQ Hs]|((_ & Hs) & t' & Ht' & HQ)].
        -- split; [done|]. exists t. split; [apply list_elem_of_here|done].
        -- split; [done|]. exists t'. split; [by apply list_elem_of_further|done].
      * intros (Hs & t' & Ht' & HQ).
        destruct (decide (Q t s)) as [HQt|HQt]; [by left|right].
        split; [done|]. exists t'. split; [|done].
        apply elem_of_cons in Ht' as [->|Ht']; [done|done].
Qed.

(** Whatever the targets, the array returned at the end is what was in
    [sortedSubjects] followed by a rearrangement of [this.subjects]. *)
Lemma forEach_pull_tail (Q : string → SubjectRef → Prop) `{!∀ t s, Decision (Q t s)}
    (targets : list (option string)) ws out :
  ∃ tail,
    (forEach targets (λ t, pull (Q t)) (ws, out)).2
      ++ (forEach targets (λ t, pull (Q t)) (ws, out)).1 = out ++ tail
    ∧ tail ≡ₚ ws.
Proof.
  destruct (forEach_pull Q targets ws out) as (extra & -> & Hperm).
  eexists. split; [by rewrite <- (assoc_L (++))|done].
Qed.

(** The same for the two [forEach] of [sort], one after the other. *)
Lemma forEach_pull_tail2 (Q1 Q2 : string → SubjectRef → Prop)
    `{!∀ t s, Decision (Q1 t s)} `{!∀ t s, Decision (Q2 t s)}
    (targets1 targets2 : list (option string)) (w : list SubjectRef * list SubjectRef) :
  ∃ tail,
    (forEach targets2 (λ t, pull (Q2 t)) (forEach targets1 (λ t, pull (Q1 t)) w)).2
      ++ (forEach targets2 (λ t, pull (Q2 t)) (forEach targets1 (λ t, pull (Q1 t)) w)).1
    = w.2 ++ tail
    ∧ tail ≡ₚ w.1.
Proof.
  destruct w as [ws out].
  destruct (forEach_pull Q1 targets1 ws out) as (extra1 & Hout1 & Hperm1).
  destruct (forEach targets1 _ (ws, out)) as [ws1 out1]. cbn [fst snd] in *. subst out1.
  destruct (forEach_pull_tail Q2 targets2 ws1 (out ++ extra1)) as (tail & -> & Hperm2).
  exists (extra1 ++ tail). split; [by rewrite <- (assoc_L (++))|].
  by rewrite Hperm2.
Qed.

(** In a list cut in two, an element absent from the first part lies after
    every element absent from the second. *)
Lemma lookup_split_order (p q : list SubjectRef) x y i j :
  x ∉ p → y ∉ q → (p ++ q) !! i = Some x → (p ++ q) !! j = Some y → (j < i)%nat.
Proof.
  intros Hx Hy Hi Hj.
  apply lookup_app_Some in Hi as [Hi|[Hi _]].
  { exfalso. apply Hx. by eapply list_elem_of_lookup_2. }
  apply lookup_app_Some in Hj as [Hj|[_ Hj]].
  - apply lookup_lt_Some in Hj. lia.
  - exfalso. apply Hy. by eapply list_elem_of_lookup_2.
Qed.

(** A round whose filter takes all the subjects of one kind or none of them
    leaves their order alone. *)
Lemma pull_stable (K P : SubjectRef → Prop) `{!∀ s, Decision (K s)} `{!∀ s, Decision (P s)}
    (w : list SubjectRef * list SubjectRef) :
  (∀ s, K s → P s) ∨ (∀ s, K s → ¬ P s) →
  filter K ((pull P w).2 ++ (pull P w).1) = filter K (w.2 ++ w.1).
Proof.
  intros Huni. destruct w as [ws out]. rewrite pull_eq. cbn [fst snd].
  rewrite <- (assoc_L (++)), !filter_app. f_equal.
  rewrite !list_filter_filter.
  destruct Huni as [Hall|Hnone].
  - destruct (filter_none (λ s, K s ∧ ¬ P s) ws) as [-> _].
    { intros s _ [HK HnP]. by apply HnP, Hall. }
    rewrite app_nil_r. apply list_filter_iff. intros s. split; [tauto|]. auto.
  - destruct (filter_none (λ s, K s ∧ P s) ws) as [-> _].
    { intros s _ [HK HP]. by apply (Hnone s). }
    cbn [app]. apply list_filter_iff. intros s. split; [tauto|]. auto.
Qed.

(** So does a [forEach] of such rounds. *)
Lemma forEach_pull_stable (K : SubjectRef → Prop) (Q : string → SubjectRef → Prop)
    `{!∀ s, Decision (K s)} `{!∀ t s, Decision (Q t s)}
    (targets : list (option string)) (w : list SubjectRef * list SubjectRef) :
  (∀ t, (∀ s, K s → Q t s) ∨ (∀ s, K s → ¬ Q t s)) →
  filter K ((forEach targets (λ t, pull (Q t)) w).2
            ++ (forEach targets (λ t, pull (Q t)) w).1)
  = filter K (w.2 ++ w.1).
Proof.
  intros Huni. unfold forEach. revert w.
  induction targets as [|[t|] targets IH]; intros w; cbn [foldl]; [done| |apply IH].
  rewrite IH. by apply pull_stable.
Qed.
End Rounds.

Section Steps.
Variable metadataAt : MetadataRef → EntityMetadata.
Variable subjectAt : SubjectRef → Subject.
Implicit Types (subjects ws out : list SubjectRef) (this : t).

(** The steps of a [sort] call that returns, on any sorter with metadatas. *)
Lemma sort_unfold this direction ws res :
  sort metadataAt subjectAt this direction = (ws, Ok res) →
  length (metadatas this) ≠ 0%nat →
  ∃ l1 l2,
    l1 ≡ₚ uniqueNodes (getNonNullableDependencies metadataAt this)
    ∧ topological (getNonNullableDependencies metadataAt this) l1
    ∧ l2 ≡ₚ uniqueNodes (getDependencies metadataAt this)
    ∧ topological (getDependencies metadataAt this) l2
    ∧ ∃ w3,
        w3 = forEach (Some <$> (if decide (direction = insert) then reverse l2 else l2))
               (λ t, pull (matchesTarget metadataAt subjectAt t))
               (forEach (Some <$> (if decide (direction = insert) then reverse l1 else l1))
                  (λ t, pull (matchesTargetOrAncestor metadataAt subjectAt t))
                  (if decide (direction = delete)
                   then pull (isJunction subjectAt) (subjects this, [])
                   else (subjects this, [])))
        ∧ ws = w3.1 ∧ res = w3.2 ++ w3.1.
Proof.
  unfold sort. intros Hsort Hne. case_decide; [done|].
  pose proof (toposort_spec (getNonNullableDependencies metadataAt this)) as H1.
  destruct (toposort (getNonNullableDependencies metadataAt this)) as [s1|e|];
    [|done|done].
  destruct H1 as (l1 & -> & Hp1 & Ht1).
  pose proof (toposort_spec (getDependencies metadataAt this)) as H2.
  destruct (toposort (getDependencies metadataAt this)) as [s2|e|];
    [|done|done].
  destruct H2 as (l2 & -> & Hp2 & Ht2).
  exists l1, l2. split_and!; [done..|].
  eexists. split; [reflexivity|].
  injection Hsort as <- <-.
  destruct (decide (direction = insert)); rewrite ?fmap_reverse; done.
Qed.

(** A new sorter of at least one subject has metadatas. *)
Lemma new_metadatas_length (input : list SubjectRef) s :
  s ∈ input → length (metadatas (new subjectAt input)) ≠ 0%nat.
Proof.
  intros Hs Hlen. apply (getUniqueMetadatas_nil metadataAt subjectAt) in Hlen. subst input.
  by apply elem_of_nil in Hs.
Qed.

(** A sorted list of names cut at the source of a dependency: the target
    comes later. *)
Lemma topological_cut (edges : list (string * string)) l a b :
  l ≡ₚ uniqueNodes edges → topological edges l → (a, b) ∈ edges →
  ∃ k1 k2,
    l = k1 ++ a :: k2 ∧ b ∈ k2 ∧ (a ∉ k1) ∧ (a ∉ k2) ∧ (b ∉ k1) ∧ a ≠ b.
Proof.
  intros Hperm Htopo Hdep.
  assert (Hnd : NoDup l) by (rewrite Hperm; apply uniqueNodes_NoDup).
  assert (Hal : a ∈ l).
  { rewrite Hperm. apply uniqueNodes_elem. exists (a, b). split; [done|by left]. }
  apply list_elem_of_split in Hal as (k1 & k2 & ->).
  pose proof (topological_split _ _ _ _ b Htopo Hdep) as Hbk.
  apply NoDup_app in Hnd as (_ & Hk1 & [Hak _]%NoDup_cons).
  exists k1, k2. split_and!; [done|done| |done| |].
  - intros Ha. apply (Hk1 a Ha). apply list_elem_of_here.
  - intros Hb. apply (Hk1 b Hb). by apply list_elem_of_further.
  - intros ->. done.
Qed.
End Steps.

End SorterFacts.

(** ** The heap under [sort] *)

Module SorterObjectFacts.
Import SubjectTopologicalSorter.

(** A [sort] call leaves every array other than [this.subjects] as it
    is. *)
Lemma sort_frame (metadataAt : MetadataRef → EntityMetadata)
    (subjectAt : SubjectRef → Subject) (h : gmap ArrayRef (list SubjectRef))
    (this : SorterObject.instance) (direction : Direction)
    (caller : ArrayRef) (elements : list SubjectRef) :
  caller ≠ SorterObject.subjectsRef this →
  h !! caller = Some elements →
  (SorterObject.sort metadataAt subjectAt h this direction).1 !! caller = Some elements.
Proof.
  intros Hne Hcaller. unfold SorterObject.sort.
  destruct (sort metadataAt subjectAt _ direction) as [ws' r].
  assert (Hkept : <[SorterObject.subjectsRef this := ws']> h !! caller = Some elements).
  { by rewrite lookup_insert_ne. }
  destruct r as [res|e|]; [|done|done].
  case_decide; [done|]. unfold SorterObject.alloc. cbn [fst].
  rewrite lookup_insert_ne; [done|].
  intros Heq. apply (is_fresh (dom (<[SorterObject.subjectsRef this := ws']> h))).
  rewrite Heq. apply elem_of_dom. by eexists.
Qed.

End SorterObjectFacts.

(** ** Lookups in the cache *)

Module CacheFacts.
Import RedisQueryResultCache.

Lemma truthy_Some (s : string) : truthy (Some s) = true ↔ s ≠ "".
Proof.
  unfold truthy. destruct (String.eqb_spec s ""); simpl; split; congruence.
Qed.

Lemma truthy_false_Some (s : string) : truthy (Some s) = false ↔ s = "".
Proof.
  unfold truthy. destruct (String.eqb_spec s ""); simpl; split; congruence.
Qed.

(** A lookup reads nothing but the entry at its key. *)
Lemma getFromCache_frame (this this' : t) (options : QueryResultCacheOptions) :
  clientType this' = clientType this →
  redisMajorVersion this' = redisMajorVersion this →
  failure (client this') = failure (client this) →
  dispatch (client this') = dispatch (client this) →
  (∀ key, keyOf options = Some key →
          entries (client this') !! key = entries (client this) !! key) →
  getFromCache this' options = getFromCache this options.
Proof.
  intros Htype Hversion Hfail Hdispatch Hentries. unfold getFromCache.
  destruct (keyOf options) as [key|]; [|done].
  specialize (Hentries key eq_refl).
  destruct (negb (truthy (Some key))); [done|].
  unfold isRedis5OrHigher, getReply.
  by rewrite Htype, Hversion, Hfail, Hdispatch, Hentries.
Qed.

(** What becomes of the error of [JSON.parse] with a callback-based
    client: the callback throws before it calls [ok] or [fail], so the
    promise is rejected only if the client called it inside the executor. *)
Lemma getFromCache_callback_parse_error (this : t) (options : QueryResultCacheOptions)
    (key text : string) (px : Z) :
  keyOf options = Some key → key ≠ "" →
  isRedis5OrHigher this = false →
  failure (client this) = None →
  entries (client this) !! key = Some (text, px) →
  text ≠ "" → JSON.parse text = None →
  getFromCache this options
  = match dispatch (client this) with
    | Immediate => reject SyntaxError
    | Deferred => Outcome Pending (Some SyntaxError)
    end.
Proof.
  intros Hkey Hne Hold Hfail Hentry Htext Hparse. unfold getFromCache.
  rewrite Hkey, Hold. apply truthy_Some in Hne, Htext. rewrite Hne. cbn [negb].
  unfold getReply. rewrite Hfail, Hentry. cbn [fmap option_fmap option_map fst].
  unfold getCallback, parseResult. by rewrite Htext, Hparse.
Qed.

(** [JSON.parse] rejects the empty text. *)
Lemma parse_empty : JSON.parse "" = None.
Proof. reflexivity. Qed.

(** A lookup that the server answers with a parsable text. *)
Lemma getFromCache_hit (this : t) (options : QueryResultCacheOptions)
    (key text : string) (px : Z) (v : JSON.value) :
  failure (client this) = None →
  keyOf options = Some key → key ≠ "" →
  entries (client this) !! key = Some (text, px) →
  JSON.parse text = Some v →
  getFromCache this options = resolve (Some v).
Proof.
  intros Hfail Hkey Hne Hentry Hparse. unfold getFromCache.
  rewrite Hkey. apply truthy_Some in Hne. rewrite Hne. cbn [negb].
  unfold getReply. rewrite Hfail, Hentry. cbn [fmap option_fmap option_map fst].
  assert (Htext : truthy (Some text) = true).
  { apply truthy_Some. intros ->. by rewrite parse_empty in Hparse. }
  unfold andThen, getCallback, parseResult. rewrite Htext, Hparse.
  by destruct (isRedis5OrHigher this).
Qed.

(** A lookup that the server answers with null. *)
Lemma getFromCache_miss (this : t) (options : QueryResultCacheOptions) :
  failure (client this) = None →
  (∀ key, keyOf options = Some key → entries (client this) !! key = None) →
  getFromCache this options = resolve None.
Proof.
  intros Hfail Hentry. unfold getFromCache.
  destruct (keyOf options) as [key|]; [|done].
  destruct (negb (truthy (Some key))); [done|].
  unfold getReply. rewrite Hfail, (Hentry key eq_refl).
  by destruct (isRedis5OrHigher this).
Qed.

(** What [storeInCache] leaves as it is. *)
Lemma storeInCache_fields (stringify : QueryResultCacheOptions → string)
    (this : t) (options savedCache : QueryResultCacheOptions) :
  clientType (storeInCache stringify this options savedCache).1 = clientType this
  ∧ redisMajorVersion (storeInCache stringify this options savedCache).1
    = redisMajorVersion this
  ∧ failure (client (storeInCache stringify this options savedCache).1)
    = failure (client this)
  ∧ dispatch (client (storeInCache stringify this options savedCache).1)
    = dispatch (client this)
  ∧ ∀ key, keyOf options ≠ Some key →
      entries (client (storeInCache stringify this options savedCache).1) !! key
      = entries (client this) !! key.
Proof.
  unfold storeInCache. destruct (keyOf options) as [k|]; [|done].
  destruct (negb (truthy (Some k))); [done|].
  destruct (failure (client this)) as [err|] eqn:Hfail; [done|].
  unfold setEntry. cbn [fst clientType redisMajorVersion client failure dispatch entries].
  split_and!; [done..|].
  intros key Hkey. apply lookup_insert_ne. congruence.
Qed.

(** What [deleteKey] leaves as it is, and what it deletes. *)
Lemma deleteKey_fields (this : t) (identifier : string) :
  clientType (deleteKey this identifier).1 = clientType this
  ∧ redisMajorVersion (deleteKey this identifier).1 = redisMajorVersion this
  ∧ failure (client (deleteKey this identifier).1) = failure (client this)
  ∧ dispatch (client (deleteKey this identifier).1) = dispatch (client this)
  ∧ (∀ key, key ≠ identifier →
       entries (client (deleteKey this identifier).1) !! key = entries (client this) !! key)
  ∧ (failure (client this) = None →
       entries (client (deleteKey this identifier).1) !! identifier = None
       ∧ (deleteKey this identifier).2 = resolve tt).
Proof.
  unfold deleteKey. destruct (failure (client this)) as [err|] eqn:Hfail.
  - cbn [fst]. rewrite Hfail. split_and!; done.
  - unfold delEntry. cbn [fst snd clientType redisMajorVersion client failure dispatch entries].
    split_and!; [done..| |].
    + intros key Hkey. by apply lookup_delete_ne.
    + intros _. split; [apply lookup_delete_eq|by destruct (isRedis5OrHigher this)].
Qed.

(** The loop of [remove], started from any cache and any promises. *)
Lemma remove_loop (identifiers : list string) : ∀ (this : t) (promises : list (outcome unit)),
  let r := foldl (λ '(this, promises) identifier,
                    let '(this', p) := deleteKey this identifier in
                    (this', promises ++ [p]))
                 (this, promises) identifiers in
  clientType r.1 = clientType this
  ∧ redisMajorVersion r.1 = redisMajorVersion this
  ∧ failure (client r.1) = failure (client this)
  ∧ dispatch (client r.1) = dispatch (client this)
  ∧ (∀ key, key ∉ identifiers → entries (client r.1) !! key = entries (client this) !! key)
  ∧ (failure (client this) = None →
       (∀ key, key ∈ identifiers → entries (client r.1) !! key = None)
       ∧ (Forall (λ p, p = resolve tt) promises → Forall (λ p, p = resolve tt) r.2)).
Proof.
  induction identifiers as [|identifier identifiers IH]; intros this promises; cbn [foldl].
  - split_and!; [done..|]. intros _. split; [|done].
    intros key Hkey. by apply elem_of_nil in Hkey.
  - destruct (deleteKey_fields this identifier)
      as (Htype & Hversion & Hfail & Hdispatch & Hother & Hdeleted).
    destruct (deleteKey this identifier) as [this' p]. cbn [fst snd] in *.
    destruct (IH this' (promises ++ [p]))
      as (Htype' & Hversion' & Hfail' & Hdispatch' & Hother' & Hdeleted').
    cbn zeta in *.
    split_and!; [congruence..| |].
    + intros key Hkey. apply not_elem_of_cons in Hkey as [Hne Hkey].
      rewrite Hother' by done. by apply Hother.
    + intros Hnone. destruct (Hdeleted Hnone) as [Hgone ->].
      rewrite Hfail in Hdeleted'. destruct (Hdeleted' Hnone) as [Hgone' Hall']. split.
      * intros key Hkey. destruct (decide (key ∈ identifiers)) as [Hin|Hout]; [by apply Hgone'|].
        rewrite Hother' by done.
        apply elem_of_cons in Hkey as [->|?]; done.
      * intros Hall. apply Hall'. apply Forall_app. split; [done|]. by apply Forall_singleton.
Qed.

(** [Promise.all] of promises that are all fulfilled. *)
Lemma promiseAll_fulfilled (promises : list (outcome unit)) :
  Forall (λ p, p = resolve tt) promises →
  promiseAll (settled <$> promises) = Fulfilled tt
  ∧ head (omap uncaught promises) = None.
Proof.
  induction 1 as [|p promises -> _ IH]; [done|]. cbn. done.
Qed.

(** A store with a client that does not fail, under a key that is not
    empty: the entry written and the promise returned. *)
Lemma storeInCache_writes (stringify : QueryResultCacheOptions → string)
    (this : t) (options savedCache : QueryResultCacheOptions) (key : string) :
  failure (client this) = None →
  keyOf options = Some key → key ≠ "" →
  entries (client (storeInCache stringify this options savedCache).1)
  = <[key := (stringify options, duration options)]> (entries (client this))
  ∧ (storeInCache stringify this options savedCache).2 = resolve tt.
Proof.
  intros Hfail Hkey Hne. unfold storeInCache. rewrite Hkey, Hfail.
  apply truthy_Some in Hne. rewrite Hne. cbn [negb fst snd].
  split; [done|]. by destruct (isRedis5OrHigher this).
Qed.

End CacheFacts.

(** ** The code on small inputs *)

Module Runs.
Import Toposort SubjectTopologicalSorter.

Example toposort_chain :
  toposort [("a", "b"); ("b", "c")] = Ok [Some "a"; Some "b"; Some "c"].
Proof. vm_compute. reflexivity. Qed.

Example toposort_tie :
  toposort [("a", "c"); ("b", "c")] = Ok [Some "a"; Some "b"; Some "c"].
Proof. vm_compute. reflexivity. Qed.

Example toposort_self_loop :
  toposort [("c", "c")] = Throw (CyclicDependency "c").
Proof. vm_compute. reflexivity. Qed.

Example toposort_three_cycle :
  toposort [("a", "b"); ("b", "c"); ("c", "a")] = Throw (CyclicDependency "c").
Proof. vm_compute. reflexivity. Qed.

Example removeAlreadySorted_first_occurrence :
  removeAlreadySorted [4; 5; 4; 6]%nat [4; 6]%nat = [5; 4]%nat.
Proof. vm_compute. reflexivity. Qed.

Example sort_dependency_insert :
  sortSubjects Scenarios.dependency Scenarios.oneEach [0; 1; 0]%nat insert
  = Ok [1; 0; 0]%nat.
Proof. vm_compute. reflexivity. Qed.

Example sort_dependency_delete :
  sortSubjects Scenarios.dependency Scenarios.oneEach [1; 0; 1]%nat delete
  = Ok [0; 1; 1]%nat.
Proof. vm_compute. reflexivity. Qed.

Example sort_no_subject :
  sort Scenarios.dependency Scenarios.oneEach (new Scenarios.oneEach []) delete
  = ([], Ok []).
Proof. vm_compute. reflexivity. Qed.

(** A second [sort] on the same instance works on what the first left
    in [this.subjects]. *)
Example sort_twice :
  (sort Scenarios.dependency Scenarios.oneEach (new Scenarios.oneEach [0; 1]%nat) insert).1
  = []
  ∧ sort Scenarios.dependency Scenarios.oneEach
      (Sorter [] (metadatas (new Scenarios.oneEach [0; 1]%nat))) insert
    = ([], Ok []).
Proof. split; vm_compute; reflexivity. Qed.

Example parse_texts :
  JSON.parse "" = None
  ∧ JSON.parse "{" = None
  ∧ JSON.parse "[1,]" = None
  ∧ JSON.parse " null " = Some JSON.Null
  ∧ JSON.parse "[1, 2.5e-3, true, [], {}]"
    = Some (JSON.Array [JSON.Number "1"; JSON.Number "2.5e-3"; JSON.Bool true;
                        JSON.Array []; JSON.Object []]).
Proof. split_and!; vm_compute; reflexivity. Qed.

Example parse_stringify :
  JSON.parse (Scenarios.stringifyOptions Scenarios.storedUnderId1)
  = Some (JSON.Object [("identifier", JSON.Str "id1");
                       ("query", JSON.Str "Q2");
                       ("time", JSON.Number "1000");
                       ("duration", JSON.Number "60000");
                       ("result", JSON.Array [JSON.Number "1"])]).
Proof. vm_compute. reflexivity. Qed.
End Runs.

(** * The claims about the sorter *)

Import JS JSFacts Toposort ToposortFacts SubjectTopologicalSorter SorterFacts
  SorterObjectFacts.

(** C2. For every subject list and both directions, [sort] on a new sorter
    returns a permutation of the input: the same subjects, none added,
    dropped or duplicated. The only other outcome of the call is the cyclic
    dependency error, thrown when one of the two dependency graphs has a
    cycle through the node it names. *)
Theorem sort_returns_permutation
    (metadataAt : MetadataRef → EntityMetadata) (subjectAt : SubjectRef → Subject)
    (input : list SubjectRef) (direction : Direction) :
  match sortSubjects metadataAt subjectAt input direction with
  | Ok res => res ≡ₚ input
  | Throw e =>
      ∃ n, e = CyclicDependency n
           ∧ (onCycle (getNonNullableDependencies metadataAt (new subjectAt input)) n
              ∨ onCycle (getDependencies metadataAt (new subjectAt input)) n)
  | OutOfFuel => False
  end.
Proof.
  pose proof (sort_outcome metadataAt subjectAt input direction) as Hout.
  destruct (sortSubjects metadataAt subjectAt input direction) as [res|e|];
    [|done|done].
  destruct Hout as (rest & -> & Hrest). rewrite Hrest.
  case_decide; [apply filter_app_complement|done].
Qed.

(** C6. When deleting, the result of [sort] starts with the junction
    subjects (no entity, no database entity) in their original order, and
    every subject after them is not a junction subject. When inserting, the
    junction step is not performed: the result does not depend on [entity]
    and [databaseEntity] at all. *)
Theorem sort_delete_junction_first
    (metadataAt : MetadataRef → EntityMetadata) (subjectAt : SubjectRef → Subject)
    (input : list SubjectRef) :
  match sortSubjects metadataAt subjectAt input delete with
  | Ok res =>
      ∃ rest, res = filter (isJunction subjectAt) input ++ rest
              ∧ Forall (λ s, ¬ isJunction subjectAt s) rest
  | Throw e => ∃ n, e = CyclicDependency n
  | OutOfFuel => False
  end
  ∧ ∀ subjectAt' : SubjectRef → Subject,
      (∀ s, metadata (subjectAt' s) = metadata (subjectAt s)) →
      sortSubjects metadataAt subjectAt' input insert
      = sortSubjects metadataAt subjectAt input insert.
Proof.
  split; [|intros subjectAt'; apply sort_insert_ext].
  pose proof (sort_outcome metadataAt subjectAt input delete) as Hout.
  destruct (sortSubjects metadataAt subjectAt input delete) as [res|e|]; [| |done].
  - destruct Hout as (rest & -> & Hrest). exists rest.
    destruct (decide (delete = delete)) as [_|?]; [|done]. split; [done|].
    apply Forall_forall. intros s Hs. rewrite Hrest in Hs.
    by apply list_elem_of_filter in Hs as [? _].
  - destruct Hout as (n & -> & _). by exists n.
Qed.

(** Four subjects of which the second and the fourth are junction subjects. *)
Lemma sort_delete_junction_first_witness :
  sortSubjects Scenarios.dependency Scenarios.interleaved
               [0; 1; 2; 3]%nat delete = Ok [1; 3; 0; 2]%nat
  ∧ sortSubjects Scenarios.dependency
                 (λ s, MkSubject (metadata (Scenarios.interleaved s)) (Some 7%nat) None)
                 [0; 1; 2; 3]%nat insert
    = sortSubjects Scenarios.dependency Scenarios.interleaved [0; 1; 2; 3]%nat insert.
Proof.
  destruct (sort_delete_junction_first Scenarios.dependency Scenarios.interleaved
              [0; 1; 2; 3]%nat) as [_ Hinsert].
  split; [vm_compute; reflexivity|].
  apply Hinsert. intros s. reflexivity.
Defined.

(** C5. When two metadatas of the subjects refer to each other through
    non-nullable relations with a join column, [sort] throws the cyclic
    dependency error, for both directions; the error is the outcome of the
    call itself and names a node that lies on a cycle of the non-nullable
    dependencies, which is one of the two entities when these are the only
    non-nullable dependencies. *)
Theorem sort_mutual_non_nullable_throws
    (metadataAt : MetadataRef → EntityMetadata) (subjectAt : SubjectRef → Subject)
    (input : list SubjectRef) (sA sB : SubjectRef) (rAB rBA : RelationMetadata)
    (direction : Direction) :
  sA ∈ input → sB ∈ input →
  rAB ∈ relationsWithJoinColumns (metadataAt (metadata (subjectAt sA))) →
  isNullable rAB = false →
  inverseEntityMetadata rAB = metadata (subjectAt sB) →
  rBA ∈ relationsWithJoinColumns (metadataAt (metadata (subjectAt sB))) →
  isNullable rBA = false →
  inverseEntityMetadata rBA = metadata (subjectAt sA) →
  ∃ n,
    sortSubjects metadataAt subjectAt input direction = Throw (CyclicDependency n)
    ∧ onCycle (getNonNullableDependencies metadataAt (new subjectAt input)) n
    ∧ ((∀ e, e ∈ getNonNullableDependencies metadataAt (new subjectAt input) →
             e = (targetName (metadataAt (metadata (subjectAt sA))),
                  targetName (metadataAt (metadata (subjectAt sB))))
             ∨ e = (targetName (metadataAt (metadata (subjectAt sB))),
                    targetName (metadataAt (metadata (subjectAt sA))))) →
       n = targetName (metadataAt (metadata (subjectAt sA)))
       ∨ n = targetName (metadataAt (metadata (subjectAt sB)))).
Proof.
  intros HsA HsB HrAB HnAB HtAB HrBA HnBA HtBA.
  set (deps := getNonNullableDependencies metadataAt (new subjectAt input)).
  set (a := targetName (metadataAt (metadata (subjectAt sA)))).
  set (b := targetName (metadataAt (metadata (subjectAt sB)))).
  assert (Hab : (a, b) ∈ deps).
  { apply (proj2 (getNonNullableDependencies_elem metadataAt subjectAt _ a b)).
    exists (metadata (subjectAt sA)), rAB. split_and!; [|done|done|by rewrite HtAB].
    apply (proj2 (getUniqueMetadatas_elem metadataAt subjectAt input _)). by exists sA. }
  assert (Hba : (b, a) ∈ deps).
  { apply (proj2 (getNonNullableDependencies_elem metadataAt subjectAt _ b a)).
    exists (metadata (subjectAt sB)), rBA. split_and!; [|done|done|by rewrite HtBA].
    apply (proj2 (getUniqueMetadatas_elem metadataAt subjectAt input _)). by exists sB. }
  assert (Hcyc : onCycle deps a).
  { eapply tc_l; [exact Hab|]. by apply tc_once. }
  destruct (sort_on_non_nullable_cycle metadataAt subjectAt input direction a)
    as (n & Hsort & Hn); [|done|].
  { intros ->. by apply elem_of_nil in HsA. }
  exists n. split_and!; [done|done|]. intros Honly.
  apply onCycle_node, uniqueNodes_elem in Hn as (e & He & Hn).
  apply Honly in He as [->| ->]; simpl in Hn; tauto.
Qed.

(** [A] and [B] that refer to each other, one subject of each, deleting. *)
Lemma sort_mutual_non_nullable_throws_witness :
  ∃ n,
    sortSubjects Scenarios.mutual Scenarios.oneEach [0; 1]%nat delete
    = Throw (CyclicDependency n)
    ∧ onCycle (getNonNullableDependencies Scenarios.mutual
                 (new Scenarios.oneEach [0; 1]%nat)) n
    ∧ ((∀ e, e ∈ getNonNullableDependencies Scenarios.mutual
                   (new Scenarios.oneEach [0; 1]%nat) →
             e = ("A", "B") ∨ e = ("B", "A")) →
       n = "A" ∨ n = "B").
Proof.
  apply (sort_mutual_non_nullable_throws Scenarios.mutual Scenarios.oneEach
           [0; 1]%nat 0%nat 1%nat (Relation false 1%nat) (Relation false 0%nat)
           delete).
  - apply list_elem_of_here.
  - apply list_elem_of_further, list_elem_of_here.
  - apply list_elem_of_here.
  - reflexivity.
  - reflexivity.
  - apply list_elem_of_here.
  - reflexivity.
  - reflexivity.
Defined.




(** C1. The claim does not hold of the code: the non-nullable dependency
    list keeps a self-referencing relation (only [getDependencies] skips
    it), so the single subject of an entity that refers to itself through a
    non-nullable relation makes [sort] throw. *)
Theorem sort_self_reference_throws :
  getNonNullableDependencies Scenarios.selfReferencing
    (new Scenarios.oneEach [0%nat]) = [("C", "C")]
  ∧ getDependencies Scenarios.selfReferencing (new Scenarios.oneEach [0%nat]) = []
  ∧ sortSubjects Scenarios.selfReferencing Scenarios.oneEach [0%nat] insert
    = Throw (CyclicDependency "C").
Proof. split_and!; vm_compute; reflexivity. Qed.

(** C3. The claim does not hold of the code: the second pass selects by
    [targetName] only. With a nullable relation from [Base] to [Dep], the
    [Derived] subject is left for the end, after [Dep], while the [Base]
    subject is placed before [Dep]; with the same relation non-nullable the
    first pass places it with [Base]. When [Derived] carries the relation
    as its own, the second pass places it at its own name, after the [Base]
    subject, where the first pass places it at [Base], before it. *)
Theorem second_pass_ignores_inheritance_tree :
  sortSubjects (Scenarios.inheritance true) Scenarios.inheritanceSubjects
               [0; 1; 2]%nat delete = Ok [1; 2; 0]%nat
  ∧ sortSubjects (Scenarios.inheritance false) Scenarios.inheritanceSubjects
                 [0; 1; 2]%nat delete = Ok [0; 1; 2]%nat
  ∧ sortSubjects (Scenarios.inheritance true) Scenarios.inheritanceSubjects
                 [0; 1; 2]%nat insert = Ok [2; 1; 0]%nat
  ∧ sortSubjects (Scenarios.inheritance false) Scenarios.inheritanceSubjects
                 [0; 1; 2]%nat insert = Ok [2; 0; 1]%nat
  ∧ sortSubjects (Scenarios.inheritedRelation true) Scenarios.inheritanceSubjects
                 [0; 1; 2]%nat insert = Ok [2; 1; 0]%nat
  ∧ sortSubjects (Scenarios.inheritedRelation false) Scenarios.inheritanceSubjects
                 [0; 1; 2]%nat insert = Ok [2; 0; 1]%nat.
Proof. split_and!; vm_compute; reflexivity. Qed.

(** C9. [sort] never changes the array the caller passed to the
    constructor: the constructor makes the sorter work on a copy, another
    array with the same elements, and after any series of [sort] calls on
    that sorter the caller's array holds the same elements at the same
    positions. *)
Theorem sort_leaves_caller_array (metadataAt : MetadataRef → EntityMetadata)
    (subjectAt : SubjectRef → Subject) (h : gmap ArrayRef (list SubjectRef))
    (caller : ArrayRef) (elements : list SubjectRef) (directions : list Direction) :
  h !! caller = Some elements →
  SorterObject.subjectsRef (SorterObject.construct subjectAt h caller).2 ≠ caller
  ∧ (SorterObject.construct subjectAt h caller).1
      !! SorterObject.subjectsRef (SorterObject.construct subjectAt h caller).2
    = Some elements
  ∧ SorterObject.sortRepeatedly metadataAt subjectAt
      (SorterObject.construct subjectAt h caller).1
      (SorterObject.construct subjectAt h caller).2 directions !! caller
    = Some elements.
Proof.
  intros Hcaller. unfold SorterObject.construct, SorterObject.alloc.
  rewrite Hcaller. cbn [default from_option id fst snd].
  set (this := SorterObject.Instance _ _).
  assert (Hne : caller ≠ SorterObject.subjectsRef this).
  { intros Heq. apply (is_fresh (dom h)). cbn in Heq. rewrite <- Heq.
    apply elem_of_dom. by eexists. }
  split_and!; [done|apply lookup_insert_eq|].
  assert (Hstart : <[fresh (dom h) := elements]> h !! caller = Some elements).
  { rewrite lookup_insert_ne; [done|]. intros Heq. by apply Hne. }
  clearbody this. revert Hstart. generalize (<[fresh (dom h) := elements]> h).
  unfold SorterObject.sortRepeatedly.
  induction directions as [|d directions IH]; intros h' Hh'; [done|].
  cbn [foldl]. apply IH. by apply sort_frame.
Qed.

(** The caller's array at reference 7, three [sort] calls. *)
Lemma sort_leaves_caller_array_witness :
  SorterObject.subjectsRef
    (SorterObject.construct Scenarios.oneEach {[ 7%nat := [0; 1]%nat ]} 7%nat).2
  ≠ 7%nat
  ∧ (SorterObject.construct Scenarios.oneEach {[ 7%nat := [0; 1]%nat ]} 7%nat).1
      !! SorterObject.subjectsRef
           (SorterObject.construct Scenarios.oneEach {[ 7%nat := [0; 1]%nat ]} 7%nat).2
    = Some [0; 1]%nat
  ∧ SorterObject.sortRepeatedly Scenarios.dependency Scenarios.oneEach
      (SorterObject.construct Scenarios.oneEach {[ 7%nat := [0; 1]%nat ]} 7%nat).1
      (SorterObject.construct Scenarios.oneEach {[ 7%nat := [0; 1]%nat ]} 7%nat).2
      [insert; delete; insert] !! 7%nat
    = Some [0; 1]%nat.
Proof.
  apply (sort_leaves_caller_array Scenarios.dependency Scenarios.oneEach
           {[ 7%nat := [0; 1]%nat ]} 7%nat [0; 1]%nat [insert; delete; insert]).
  reflexivity.
Defined.

(** * Further properties of the sorter *)

(** When [toposort] returns, the array has no hole, lists every name that
    occurs in a pair exactly once, and for every pair [[x, y]] the position
    of [x] is before the position of [y]. *)
Theorem toposort_returns_topological_order {A : Type} `{EqDecision A}
    (edges : list (A * A)) (s : list (option A)) :
  toposort edges = Ok s →
  ∃ l, s = Some <$> l
       ∧ NoDup l
       ∧ (∀ x, x ∈ l ↔ ∃ e, e ∈ edges ∧ (x = e.1 ∨ x = e.2))
       ∧ ∀ x y i j, (x, y) ∈ edges → l !! i = Some x → l !! j = Some y → (i < j)%nat.
Proof.
  intros Hs. pose proof (toposort_spec edges) as Hspec. rewrite Hs in Hspec.
  destruct Hspec as (l & -> & Hperm & Htopo).
  assert (Hnd : NoDup l) by (rewrite Hperm; apply uniqueNodes_NoDup).
  exists l. split_and!; [done|done| |].
  - intros x. by rewrite Hperm, uniqueNodes_elem.
  - intros x y i j Hxy Hi Hj.
    rewrite <- (take_drop_middle l i x Hi) in Htopo.
    apply (topological_split edges _ _ _ y) in Htopo; [|done].
    apply list_elem_of_lookup in Htopo as [k Hk].
    rewrite lookup_drop in Hk.
    pose proof (NoDup_lookup l _ _ y Hnd Hj Hk). lia.
Qed.

Lemma toposort_returns_topological_order_witness :
  ∃ l, [Some "a"; Some "b"; Some "c"] = Some <$> l
       ∧ NoDup l
       ∧ (∀ x, x ∈ l ↔ ∃ e, e ∈ [("a", "b"); ("b", "c")] ∧ (x = e.1 ∨ x = e.2))
       ∧ ∀ x y i j, (x, y) ∈ [("a", "b"); ("b", "c")] →
           l !! i = Some x → l !! j = Some y → (i < j)%nat.
Proof.
  apply (toposort_returns_topological_order [("a", "b"); ("b", "c")]).
  vm_compute. reflexivity.
Defined.

(** [toposort] throws exactly when the pairs form a cycle (a pair [[x, x]]
    is one). *)
Theorem toposort_throws_iff_cyclic {A : Type} `{EqDecision A} (edges : list (A * A)) :
  (∃ e, toposort edges = Throw e) ↔ ∃ n, onCycle edges n.
Proof.
  split.
  - intros [e He]. pose proof (toposort_spec edges) as Hspec. rewrite He in Hspec.
    destruct Hspec as (n & _ & Hn). by exists n.
  - intros [n Hn]. destruct (toposort_cyclic edges n Hn) as (m & -> & _). by eexists.
Qed.

(** The only error [toposort] ever throws is the cyclic dependency, and the
    node it names lies on a cycle: the unknown node error of [visit] cannot
    occur, since the nodes are collected from the pairs, and the traversal
    never goes deeper than the number of nodes. *)
Theorem toposort_only_error_is_cycle {A : Type} `{EqDecision A} (edges : list (A * A)) :
  toposort edges ≠ OutOfFuel
  ∧ (∀ n, toposort edges ≠ Throw (UnknownNode n))
  ∧ ∀ n, toposort edges = Throw (CyclicDependency n) → onCycle edges n.
Proof.
  pose proof (toposort_spec edges) as Hspec.
  destruct (toposort edges) as [s|e|]; [|destruct Hspec as (n & -> & Hn)|done].
  - split_and!; intros; discriminate.
  - split_and!; [done|done|]. by intros ? [= <-].
Qed.

(** [getUniqueMetadatas] lists the metadata of every subject, each metadata
    once. *)
Theorem getUniqueMetadatas_lists_each_once
    (subjectAt : SubjectRef → Subject) (input : list SubjectRef) :
  NoDup (getUniqueMetadatas subjectAt input)
  ∧ ∀ m, m ∈ getUniqueMetadatas subjectAt input
         ↔ ∃ s, s ∈ input ∧ metadata (subjectAt s) = m.
Proof.
  split; [|intros m; apply (getUniqueMetadatas_elem (Scenarios.metadataTable []))].
  unfold getUniqueMetadatas.
  assert (Hgen : ∀ acc, NoDup acc →
    NoDup (foldl (λ metadatas subject,
                    if decide (indexOf metadatas (metadata (subjectAt subject)) = -1)
                    then metadatas ++ [metadata (subjectAt subject)] else metadatas)
                 acc input)).
  { induction input as [|s input IH]; intros acc Hacc; cbn [foldl]; [done|].
    apply IH. case_decide as Hd; [|done].
    apply NoDup_app. split_and!; [done| |apply NoDup_singleton].
    intros x Hx ->%list_elem_of_singleton. by apply indexOf_absent_eq in Hd. }
  apply Hgen, NoDup_nil_2.
Qed.

(** Called, as [sort] calls it, with the subjects that a filter selected
    from [this.subjects], [removeAlreadySorted] leaves exactly the subjects
    the filter did not select, in their order, also when a subject occurs
    more than once. *)
Theorem removeAlreadySorted_removes_the_selected
    (P : SubjectRef → Prop) `{!∀ s, Decision (P s)} (this_subjects : list SubjectRef) :
  removeAlreadySorted this_subjects (filter P this_subjects)
  = filter (λ s, ¬ P s) this_subjects.
Proof. apply removeAlreadySorted_filter. Qed.

(** Called with a subject that is not in [this.subjects],
    [removeAlreadySorted] removes the last element of [this.subjects]:
    [indexOf] answers [-1] and [splice(-1, 1)] counts from the end. *)
Theorem removeAlreadySorted_absent_subject_drops_last
    (this_subjects : list SubjectRef) (subject : SubjectRef) :
  subject ∉ this_subjects →
  removeAlreadySorted this_subjects [subject]
  = take (length this_subjects - 1) this_subjects.
Proof.
  intros Habsent. apply indexOf_absent_eq in Habsent.
  unfold removeAlreadySorted. cbn [foldl]. rewrite Habsent. unfold splice1.
  rewrite decide_True by lia.
  destruct (decide (this_subjects = [])) as [->|Hne]; [done|].
  assert (0 < length this_subjects)%nat by (destruct this_subjects; [done|simpl; lia]).
  replace (Z.to_nat (Z.max (Z.of_nat (length this_subjects) + -1) 0))
    with (length this_subjects - 1)%nat by lia.
  rewrite delete_take_drop, drop_ge, app_nil_r by lia. done.
Qed.

Lemma removeAlreadySorted_absent_subject_drops_last_witness :
  removeAlreadySorted [4; 5; 6]%nat [7]%nat = [4; 5]%nat.
Proof.
  apply (removeAlreadySorted_absent_subject_drops_last [4; 5; 6]%nat 7%nat).
  intros Hin. repeat (apply elem_of_cons in Hin as [Hin|Hin]; [discriminate|]).
  by apply elem_of_nil in Hin.
Defined.

(** Every non-nullable dependency between two different names is also a
    dependency of the second pass. *)
Theorem first_pass_dependencies_are_in_second
    (metadataAt : MetadataRef → EntityMetadata) (this : t) (x y : string) :
  (x, y) ∈ getNonNullableDependencies metadataAt this → x ≠ y →
  (x, y) ∈ getDependencies metadataAt this.
Proof.
  intros Hxy Hne.
  apply (getNonNullableDependencies_elem metadataAt Scenarios.oneEach) in Hxy
    as (m & r & Hm & Hr & _ & [= -> ->]).
  apply (getDependencies_elem metadataAt Scenarios.oneEach).
  exists m, r. split_and!; [done|done| |done].
  intros Heq. apply Hne. by rewrite Heq.
Qed.

Lemma first_pass_dependencies_are_in_second_witness :
  ("A", "B") ∈ getDependencies Scenarios.dependency (new Scenarios.oneEach [0; 1]%nat).
Proof.
  apply (first_pass_dependencies_are_in_second Scenarios.dependency
           (new Scenarios.oneEach [0; 1]%nat) "A" "B").
  - vm_compute. apply list_elem_of_here.
  - discriminate.
Defined.

(** [sort] on a new sorter throws exactly when there is a subject and the
    non-nullable dependencies or the dependencies of the second pass
    (nullable ones included, self-references excluded) form a cycle,
    whatever the direction. *)
Theorem sort_throws_iff_cyclic
    (metadataAt : MetadataRef → EntityMetadata) (subjectAt : SubjectRef → Subject)
    (input : list SubjectRef) (direction : Direction) :
  (∃ e, sortSubjects metadataAt subjectAt input direction = Throw e)
  ↔ input ≠ []
    ∧ ∃ n, onCycle (getNonNullableDependencies metadataAt (new subjectAt input)) n
           ∨ onCycle (getDependencies metadataAt (new subjectAt input)) n.
Proof.
  split.
  - intros [e He].
    pose proof (sort_outcome metadataAt subjectAt input direction) as Hout.
    rewrite He in Hout. destruct Hout as (n & _ & Hn). split; [|by exists n].
    intros ->. vm_compute in He. done.
  - intros [Hne [n Hn]]. unfold sortSubjects, sort.
    case_decide as Hlen; [by apply (getUniqueMetadatas_nil metadataAt subjectAt) in Hlen|].
    pose proof (toposort_spec (getNonNullableDependencies metadataAt (new subjectAt input)))
      as H1.
    destruct (toposort (getNonNullableDependencies metadataAt (new subjectAt input)))
      as [s1|e|] eqn:E1; [|by exists e|done].
    destruct Hn as [Hn|Hn].
    { destruct (toposort_cyclic _ _ Hn) as (k & Hk & _). congruence. }
    destruct (toposort_cyclic _ _ Hn) as (k & -> & _). by eexists.
Qed.

(** The result of [sort] is made of four consecutive blocks: the junction
    subjects (when deleting), the subjects that a name of the non-nullable
    dependencies selects by target name or inheritance tree, the remaining
    subjects that a name of the dependencies of the second pass selects by
    target name, and the subjects that no name selects. *)
Theorem sort_result_blocks
    (metadataAt : MetadataRef → EntityMetadata) (subjectAt : SubjectRef → Subject)
    (input res : list SubjectRef) (direction : Direction) :
  sortSubjects metadataAt subjectAt input direction = Ok res →
  ∃ junction first second rest,
    res = junction ++ first ++ second ++ rest
    ∧ junction = (if decide (direction = delete)
                  then filter (isJunction subjectAt) input else [])
    ∧ (∀ s, s ∈ first ↔
         s ∈ input ∧ (direction = delete → ¬ isJunction subjectAt s)
         ∧ ∃ t, t ∈ uniqueNodes (getNonNullableDependencies metadataAt (new subjectAt input))
                ∧ matchesTargetOrAncestor metadataAt subjectAt t s)
    ∧ (∀ s, s ∈ second ↔
         s ∈ input ∧ (direction = delete → ¬ isJunction subjectAt s)
         ∧ (∀ t, t ∈ uniqueNodes (getNonNullableDependencies metadataAt (new subjectAt input))
                 → ¬ matchesTargetOrAncestor metadataAt subjectAt t s)
         ∧ ∃ t, t ∈ uniqueNodes (getDependencies metadataAt (new subjectAt input))
                ∧ matchesTarget metadataAt subjectAt t s)
    ∧ (∀ s, s ∈ rest ↔
         s ∈ input ∧ (direction = delete → ¬ isJunction subjectAt s)
         ∧ (∀ t, t ∈ uniqueNodes (getNonNullableDependencies metadataAt (new subjectAt input))
                 → ¬ matchesTargetOrAncestor metadataAt subjectAt t s)
         ∧ ∀ t, t ∈ uniqueNodes (getDependencies metadataAt (new subjectAt input))
                → ¬ matchesTarget metadataAt subjectAt t s).
Proof.
  intros Hsort. unfold sortSubjects in Hsort.
  destruct (sort metadataAt subjectAt (new subjectAt input) direction) as [ws r'] eqn:E.
  cbn [snd] in Hsort. subst r'.
  destruct (decide (length (metadatas (new subjectAt input)) = 0%nat)) as [Hlen|Hlen].
  { unfold sort in E. rewrite decide_True in E by done. injection E as _ <-.
    apply (getUniqueMetadatas_nil metadataAt subjectAt) in Hlen. subst input.
    exists [], [], [], []. split_and!; [done|by case_decide|..];
      intros s; (split; [intros Hs; by apply elem_of_nil in Hs|]);
      intros [Hs _]; by apply elem_of_nil in Hs. }
  apply sort_unfold in E as (l1 & l2 & Hp1 & _ & Hp2 & _ & w3 & Hw3 & _ & ->); [|done].
  cbn [subjects new] in Hw3.
  set (pool := if decide (direction = delete)
               then filter (λ s, ¬ isJunction subjectAt s) input else input).
  set (junction := if decide (direction = delete)
                   then filter (isJunction subjectAt) input else []).
  assert (Hw1 : (if decide (direction = delete)
                 then pull (isJunction subjectAt) (input, []) else (input, []))
                = (pool, junction)).
  { unfold pool, junction.
    destruct (decide (direction = delete)); [by rewrite pull_eq|done]. }
  rewrite Hw1 in Hw3.
  assert (Hpool : ∀ s, s ∈ pool
                       ↔ s ∈ input ∧ (direction = delete → ¬ isJunction subjectAt s)).
  { intros s. unfold pool. destruct (decide (direction = delete)).
    - rewrite list_elem_of_filter. tauto.
    - tauto. }
  set (T1 := if decide (direction = insert) then reverse l1 else l1) in *.
  set (T2 := if decide (direction = insert) then reverse l2 else l2) in *.
  assert (HT1 : ∀ t, t ∈ T1 ↔
            t ∈ uniqueNodes (getNonNullableDependencies metadataAt (new subjectAt input))).
  { intros t. unfold T1.
    destruct (decide (direction = insert)); by rewrite ?elem_of_reverse, Hp1. }
  assert (HT2 : ∀ t, t ∈ T2 ↔
            t ∈ uniqueNodes (getDependencies metadataAt (new subjectAt input))).
  { intros t. unfold T2.
    destruct (decide (direction = insert)); by rewrite ?elem_of_reverse, Hp2. }
  destruct (forEach_pull_members (matchesTargetOrAncestor metadataAt subjectAt)
              T1 pool junction) as (Hleft1 & first & Hout1 & Hfirst).
  destruct (forEach (Some <$> T1)
              (λ t, pull (matchesTargetOrAncestor metadataAt subjectAt t)) (pool, junction))
    as [ws2 out2].
  cbn [fst snd] in Hout1, Hleft1. subst out2.
  destruct (forEach_pull_members (matchesTarget metadataAt subjectAt)
              T2 ws2 (junction ++ first)) as (Hleft2 & second & Hout2 & Hsecond).
  rewrite <- Hw3 in Hleft2, Hout2.
  exists junction, first, second, w3.1.
  split_and!.
  - by rewrite Hout2, <- !(assoc_L (++)).
  - done.
  - intros s. rewrite Hfirst, Hpool. setoid_rewrite HT1. tauto.
  - intros s. rewrite Hsecond, Hleft1, Hpool. setoid_rewrite HT1. setoid_rewrite HT2.
    tauto.
  - intros s. rewrite Hleft2, Hleft1, Hpool. setoid_rewrite HT1. setoid_rewrite HT2.
    tauto.
Qed.

Lemma sort_result_blocks_witness :
  ∃ junction first second rest,
    [1; 0; 0]%nat = junction ++ first ++ second ++ rest
    ∧ junction = (if decide (insert = delete)
                  then filter (isJunction Scenarios.oneEach) [0; 1; 0]%nat else [])
    ∧ (∀ s, s ∈ first ↔
         s ∈ [0; 1; 0]%nat ∧ (insert = delete → ¬ isJunction Scenarios.oneEach s)
         ∧ ∃ t, t ∈ uniqueNodes (getNonNullableDependencies Scenarios.dependency
                                   (new Scenarios.oneEach [0; 1; 0]%nat))
                ∧ matchesTargetOrAncestor Scenarios.dependency Scenarios.oneEach t s)
    ∧ (∀ s, s ∈ second ↔
         s ∈ [0; 1; 0]%nat ∧ (insert = delete → ¬ isJunction Scenarios.oneEach s)
         ∧ (∀ t, t ∈ uniqueNodes (getNonNullableDependencies Scenarios.dependency
                                    (new Scenarios.oneEach [0; 1; 0]%nat))
                 → ¬ matchesTargetOrAncestor Scenarios.dependency Scenarios.oneEach t s)
         ∧ ∃ t, t ∈ uniqueNodes (getDependencies Scenarios.dependency
                                   (new Scenarios.oneEach [0; 1; 0]%nat))
                ∧ matchesTarget Scenarios.dependency Scenarios.oneEach t s)
    ∧ (∀ s, s ∈ rest ↔
         s ∈ [0; 1; 0]%nat ∧ (insert = delete → ¬ isJunction Scenarios.oneEach s)
         ∧ (∀ t, t ∈ uniqueNodes (getNonNullableDependencies Scenarios.dependency
                                    (new Scenarios.oneEach [0; 1; 0]%nat))
                 → ¬ matchesTargetOrAncestor Scenarios.dependency Scenarios.oneEach t s)
         ∧ ∀ t, t ∈ uniqueNodes (getDependencies Scenarios.dependency
                                   (new Scenarios.oneEach [0; 1; 0]%nat))
                → ¬ matchesTarget Scenarios.dependency Scenarios.oneEach t s).
Proof.
  apply (sort_result_blocks Scenarios.dependency Scenarios.oneEach
           [0; 1; 0]%nat [1; 0; 0]%nat insert).
  vm_compute. reflexivity.
Defined.

(** Sorting for insertion: when the entity of [sA] has a non-nullable
    relation with a join column to the entity of [sB], and the inheritance
    tree of the entity of [sA] names no other entity, every occurrence of
    [sB] in the result is before every occurrence of [sA], whatever other
    subjects there are. *)
Theorem sort_insert_places_dependency_first
    (metadataAt : MetadataRef → EntityMetadata) (subjectAt : SubjectRef → Subject)
    (input res : list SubjectRef) (sA sB : SubjectRef) (r : RelationMetadata) :
  sortSubjects metadataAt subjectAt input insert = Ok res →
  sA ∈ input → sB ∈ input →
  r ∈ relationsWithJoinColumns (metadataAt (metadata (subjectAt sA))) →
  isNullable r = false →
  inverseEntityMetadata r = metadata (subjectAt sB) →
  (∀ x, x ∈ inheritanceTree (metadataAt (metadata (subjectAt sA))) →
        x = targetName (metadataAt (metadata (subjectAt sA)))) →
  ∀ i j, res !! i = Some sA → res !! j = Some sB → (j < i)%nat.
Proof.
  intros Hsort HsA HsB Hr Hnn Hinv Htree.
  unfold sortSubjects in Hsort.
  destruct (sort metadataAt subjectAt (new subjectAt input) insert) as [ws r'] eqn:E.
  cbn [snd] in Hsort. subst r'.
  apply sort_unfold in E as (l1 & l2 & Hp1 & Ht1 & _ & _ & w3 & Hw3 & _ & ->);
    [|by apply (new_metadatas_length metadataAt subjectAt input sA)].
  destruct (decide (insert = insert)) as [_|?]; [|done].
  destruct (decide (insert = delete)) as [?|_]; [done|].
  set (a := targetName (metadataAt (metadata (subjectAt sA)))) in *.
  set (b := targetName (metadataAt (metadata (subjectAt sB)))).
  assert (Hdep : (a, b) ∈ getNonNullableDependencies metadataAt (new subjectAt input)).
  { apply (proj2 (getNonNullableDependencies_elem metadataAt subjectAt _ a b)).
    exists (metadata (subjectAt sA)), r. split_and!; [|done|done|by rewrite Hinv].
    apply (proj2 (getUniqueMetadatas_elem metadataAt subjectAt input _)). by exists sA. }
  destruct (topological_cut _ l1 a b Hp1 Ht1 Hdep)
    as (k1 & k2 & -> & Hb & _ & Ha & _ & _).
  rewrite reverse_app, reverse_cons, <- (assoc_L (++)), fmap_app, forEach_app in Hw3.
  cbn [subjects new] in Hw3.
  destruct (forEach_pull_members (matchesTargetOrAncestor metadataAt subjectAt)
              (reverse k2) input []) as (Hleft & extra & Hout & Hextra).
  destruct (forEach_pull_tail2 (matchesTargetOrAncestor metadataAt subjectAt)
              (matchesTarget metadataAt subjectAt)
              (Some <$> ([a] ++ reverse k1)) (Some <$> reverse l2)
              (forEach (Some <$> reverse k2)
                 (λ t, pull (matchesTargetOrAncestor metadataAt subjectAt t)) (input, [])))
    as (tail & Hres & Htail).
  rewrite <- Hw3 in Hres. rewrite Hres, Hout. cbn [app].
  intros i j. apply lookup_split_order.
  - rewrite Hextra. intros (_ & t & Ht & [Heq|Hex]).
    + apply Ha. rewrite elem_of_reverse in Ht. by rewrite <- Heq in Ht.
    + apply Exists_exists in Hex as (x & Hx & ->). apply Htree in Hx.
      apply Ha. rewrite elem_of_reverse in Ht. by rewrite Hx in Ht.
  - rewrite Htail, Hleft. intros (_ & Hno). apply (Hno b).
    + by apply elem_of_reverse.
    + by left.
Qed.

Lemma sort_insert_places_dependency_first_witness :
  sortSubjects Scenarios.dependency Scenarios.oneEach [0; 1; 0]%nat insert
  = Ok [1; 0; 0]%nat
  ∧ (0 < 1)%nat.
Proof.
  split; [vm_compute; reflexivity|].
  apply (sort_insert_places_dependency_first Scenarios.dependency Scenarios.oneEach
           [0; 1; 0]%nat [1; 0; 0]%nat 0%nat 1%nat (Relation false 1%nat)).
  - vm_compute. reflexivity.
  - apply list_elem_of_here.
  - apply list_elem_of_further, list_elem_of_here.
  - apply list_elem_of_here.
  - reflexivity.
  - reflexivity.
  - intros x ->%list_elem_of_singleton. reflexivity.
  - reflexivity.
  - reflexivity.
Defined.

(** Sorting for deletion: with the same relation, when [sB] is no junction
    subject and the inheritance tree of its entity names no other entity,
    every occurrence of [sA] in the result is before every occurrence of
    [sB]. *)
Theorem sort_delete_places_dependent_first
    (metadataAt : MetadataRef → EntityMetadata) (subjectAt : SubjectRef → Subject)
    (input res : list SubjectRef) (sA sB : SubjectRef) (r : RelationMetadata) :
  sortSubjects metadataAt subjectAt input delete = Ok res →
  sA ∈ input → sB ∈ input →
  r ∈ relationsWithJoinColumns (metadataAt (metadata (subjectAt sA))) →
  isNullable r = false →
  inverseEntityMetadata r = metadata (subjectAt sB) →
  ¬ isJunction subjectAt sB →
  (∀ x, x ∈ inheritanceTree (metadataAt (metadata (subjectAt sB))) →
        x = targetName (metadataAt (metadata (subjectAt sB)))) →
  ∀ i j, res !! i = Some sA → res !! j = Some sB → (i < j)%nat.
Proof.
  intros Hsort HsA HsB Hr Hnn Hinv Hjunction Htree.
  unfold sortSubjects in Hsort.
  destruct (sort metadataAt subjectAt (new subjectAt input) delete) as [ws r'] eqn:E.
  cbn [snd] in Hsort. subst r'.
  apply sort_unfold in E as (l1 & l2 & Hp1 & Ht1 & _ & _ & w3 & Hw3 & _ & ->);
    [|by apply (new_metadatas_length metadataAt subjectAt input sA)].
  destruct (decide (delete = insert)) as [?|_]; [done|].
  destruct (decide (delete = delete)) as [_|?]; [|done].
  set (a := targetName (metadataAt (metadata (subjectAt sA)))).
  set (b := targetName (metadataAt (metadata (subjectAt sB)))) in *.
  assert (Hdep : (a, b) ∈ getNonNullableDependencies metadataAt (new subjectAt input)).
  { apply (proj2 (getNonNullableDependencies_elem metadataAt subjectAt _ a b)).
    exists (metadata (subjectAt sA)), r. split_and!; [|done|done|by rewrite Hinv].
    apply (proj2 (getUniqueMetadatas_elem metadataAt subjectAt input _)). by exists sA. }
  destruct (topological_cut _ l1 a b Hp1 Ht1 Hdep)
    as (k1 & k2 & -> & _ & _ & _ & Hb & Hab).
  rewrite (cons_middle a k1 k2), (assoc_L (++)), fmap_app, forEach_app, pull_eq in Hw3.
  cbn [subjects new] in Hw3.
  destruct (forEach_pull_members (matchesTargetOrAncestor metadataAt subjectAt)
              (k1 ++ [a]) (filter (λ s, ¬ isJunction subjectAt s) input)
              ([] ++ filter (isJunction subjectAt) input))
    as (Hleft & extra & Hout & Hextra).
  destruct (forEach_pull_tail2 (matchesTargetOrAncestor metadataAt subjectAt)
              (matchesTarget metadataAt subjectAt)
              (Some <$> k2) (Some <$> l2)
              (forEach (Some <$> (k1 ++ [a]))
                 (λ t, pull (matchesTargetOrAncestor metadataAt subjectAt t))
                 (filter (λ s, ¬ isJunction subjectAt s) input,
                  [] ++ filter (isJunction subjectAt) input)))
    as (tail & Hres & Htail).
  rewrite <- Hw3 in Hres. rewrite Hres, Hout. cbn [app].
  intros i j Hi Hj. revert Hj Hi. apply lookup_split_order.
  - assert (Hpre : ∀ t, t ∈ k1 ++ [a] → t ≠ b).
    { intros t [Ht|Ht%list_elem_of_singleton]%elem_of_app ->; [done|by apply Hab]. }
    rewrite elem_of_app, list_elem_of_filter, Hextra.
    intros [[HJ _]|(_ & t & Ht & [Heq|Hex])]; [done| |].
    + by apply (Hpre t).
    + apply Exists_exists in Hex as (x & Hx & Heq). apply Htree in Hx.
      apply (Hpre t); [done|]. by rewrite <- Heq.
  - rewrite Htail, Hleft. intros (_ & Hno). apply (Hno a).
    + apply elem_of_app. right. apply list_elem_of_here.
    + by left.
Qed.

Lemma sort_delete_places_dependent_first_witness :
  sortSubjects Scenarios.dependency Scenarios.oneEach [1; 0; 1]%nat delete
  = Ok [0; 1; 1]%nat
  ∧ (0 < 2)%nat.
Proof.
  split; [vm_compute; reflexivity|].
  apply (sort_delete_places_dependent_first Scenarios.dependency Scenarios.oneEach
           [1; 0; 1]%nat [0; 1; 1]%nat 0%nat 1%nat (Relation false 1%nat)).
  - vm_compute. reflexivity.
  - apply list_elem_of_further, list_elem_of_here.
  - apply list_elem_of_here.
  - apply list_elem_of_here.
  - reflexivity.
  - reflexivity.
  - intros [Hentity _]. discriminate.
  - intros x ->%list_elem_of_singleton. reflexivity.
  - reflexivity.
  - reflexivity.
Defined.

(** Sorting for insertion, second pass: when the entity of [sA] has a
    relation with a join column, nullable or not, to another entity, that of
    [sB], and no non-nullable relation of the subjects starts or ends at a
    name that selects [sA] in the first pass, every occurrence of [sB] in
    the result is before every occurrence of [sA]. *)
Theorem sort_insert_places_nullable_dependency_first
    (metadataAt : MetadataRef → EntityMetadata) (subjectAt : SubjectRef → Subject)
    (input res : list SubjectRef) (sA sB : SubjectRef) (r : RelationMetadata) :
  sortSubjects metadataAt subjectAt input insert = Ok res →
  sA ∈ input → sB ∈ input →
  r ∈ relationsWithJoinColumns (metadataAt (metadata (subjectAt sA))) →
  inverseEntityMetadata r = metadata (subjectAt sB) →
  metadata (subjectAt sB) ≠ metadata (subjectAt sA) →
  (∀ s' r', s' ∈ input →
     r' ∈ relationsWithJoinColumns (metadataAt (metadata (subjectAt s'))) →
     isNullable r' = false →
     ¬ matchesTargetOrAncestor metadataAt subjectAt
         (targetName (metadataAt (metadata (subjectAt s')))) sA
     ∧ ¬ matchesTargetOrAncestor metadataAt subjectAt
           (targetName (metadataAt (inverseEntityMetadata r'))) sA) →
  ∀ i j, res !! i = Some sA → res !! j = Some sB → (j < i)%nat.
Proof.
  intros Hsort HsA HsB Hr Hinv Hne Hapart.
  unfold sortSubjects in Hsort.
  destruct (sort metadataAt subjectAt (new subjectAt input) insert) as [ws r'] eqn:E.
  cbn [snd] in Hsort. subst r'.
  apply sort_unfold in E as (l1 & l2 & Hp1 & _ & Hp2 & Ht2 & w3 & Hw3 & _ & ->);
    [|by apply (new_metadatas_length metadataAt subjectAt input sA)].
  destruct (decide (insert = insert)) as [_|?]; [|done].
  destruct (decide (insert = delete)) as [?|_]; [done|].
  set (a := targetName (metadataAt (metadata (subjectAt sA)))).
  set (b := targetName (metadataAt (metadata (subjectAt sB)))).
  assert (Hdep : (a, b) ∈ getDependencies metadataAt (new subjectAt input)).
  { apply (proj2 (getDependencies_elem metadataAt subjectAt _ a b)).
    exists (metadata (subjectAt sA)), r. split_and!; [|done|by rewrite Hinv|by rewrite Hinv].
    apply (proj2 (getUniqueMetadatas_elem metadataAt subjectAt input _)). by exists sA. }
  destruct (topological_cut _ l2 a b Hp2 Ht2 Hdep)
    as (k1 & k2 & -> & Hb & _ & Ha & _ & _).
  rewrite reverse_app, reverse_cons, <- (assoc_L (++)), fmap_app, forEach_app in Hw3.
  cbn [subjects new] in Hw3.
  destruct (forEach_pull_members (matchesTargetOrAncestor metadataAt subjectAt)
              (reverse l1) input []) as (_ & extra1 & Hout1 & Hextra1).
  destruct (forEach (Some <$> reverse l1)
              (λ t, pull (matchesTargetOrAncestor metadataAt subjectAt t)) (input, []))
    as [ws2 out2].
  cbn [fst snd app] in Hout1. subst out2.
  destruct (forEach_pull_members (matchesTarget metadataAt subjectAt)
              (reverse k2) ws2 extra1) as (Hleft & extra2 & Hout2 & Hextra2).
  destruct (forEach_pull_tail (matchesTarget metadataAt subjectAt)
              (Some <$> ([a] ++ reverse k1))
              (forEach (Some <$> reverse k2)
                 (λ t, pull (matchesTarget metadataAt subjectAt t)) (ws2, extra1)).1
              (forEach (Some <$> reverse k2)
                 (λ t, pull (matchesTarget metadataAt subjectAt t)) (ws2, extra1)).2)
    as (tail & Hres & Htail).
  rewrite <- surjective_pairing, <- Hw3 in Hres. rewrite Hres, Hout2.
  intros i j. apply lookup_split_order.
  - rewrite elem_of_app, Hextra1, Hextra2.
    intros [(_ & t & Ht & HQ)|(_ & t & Ht & HQ)].
    + rewrite elem_of_reverse, Hp1 in Ht.
      apply uniqueNodes_elem in Ht as ([x y] & Hxy & Ht).
      apply getNonNullableDependencies_elem in Hxy
        as (m & r' & Hm & Hr' & Hnn & [= -> ->]); [|exact subjectAt].
      apply getUniqueMetadatas_elem in Hm as (s' & Hs' & <-); [|exact metadataAt].
      destruct (Hapart s' r' Hs' Hr' Hnn) as [Hx Hy].
      cbn [fst snd] in Ht. destruct Ht as [->| ->]; done.
    + unfold matchesTarget in HQ. apply Ha. rewrite elem_of_reverse in Ht.
      by rewrite <- HQ in Ht.
  - rewrite Htail, Hleft. intros (_ & Hno). apply (Hno b); [|done].
    by apply elem_of_reverse.
Qed.

Lemma sort_insert_places_nullable_dependency_first_witness :
  sortSubjects (Scenarios.inheritance true) Scenarios.oneEach [0; 2]%nat insert
  = Ok [2; 0]%nat
  ∧ (0 < 1)%nat.
Proof.
  split; [vm_compute; reflexivity|].
  apply (sort_insert_places_nullable_dependency_first
           (Scenarios.inheritance true) Scenarios.oneEach
           [0; 2]%nat [2; 0]%nat 0%nat 2%nat (Relation true 2%nat)).
  - vm_compute. reflexivity.
  - apply list_elem_of_here.
  - apply list_elem_of_further, list_elem_of_here.
  - apply list_elem_of_here.
  - reflexivity.
  - discriminate.
  - intros s' r' [->|[->|Hs']%elem_of_cons]%elem_of_cons Hr' Hnn.
    + apply list_elem_of_singleton in Hr' as ->. discriminate.
    + by apply elem_of_nil in Hr'.
    + by apply elem_of_nil in Hs'.
  - reflexivity.
  - reflexivity.
Defined.

(** [sort] keeps the subjects of one metadata in the order of the input;
    when deleting, the junction subjects among them first. *)
Theorem sort_keeps_order_within_metadata
    (metadataAt : MetadataRef → EntityMetadata) (subjectAt : SubjectRef → Subject)
    (input res : list SubjectRef) (direction : Direction) (m : MetadataRef) :
  sortSubjects metadataAt subjectAt input direction = Ok res →
  filter (λ s, metadata (subjectAt s) = m) res
  = filter (λ s, metadata (subjectAt s) = m)
      (if decide (direction = delete)
       then filter (isJunction subjectAt) input
            ++ filter (λ s, ¬ isJunction subjectAt s) input
       else input).
Proof.
  intros Hsort. unfold sortSubjects in Hsort.
  destruct (sort metadataAt subjectAt (new subjectAt input) direction) as [ws r'] eqn:E.
  cbn [snd] in Hsort. subst r'.
  destruct (decide (length (metadatas (new subjectAt input)) = 0%nat)) as [Hlen|Hlen].
  { unfold sort in E. rewrite decide_True in E by done. injection E as _ <-.
    apply (getUniqueMetadatas_nil metadataAt subjectAt) in Hlen. subst input.
    by case_decide. }
  apply sort_unfold in E as (l1 & l2 & _ & _ & _ & _ & w3 & -> & _ & ->); [|done].
  assert (Hapart : ∀ (Q : MetadataRef → Prop), (∀ m', Decision (Q m')) →
            (∀ s, metadata (subjectAt s) = m → Q (metadata (subjectAt s)))
            ∨ (∀ s, metadata (subjectAt s) = m → ¬ Q (metadata (subjectAt s)))).
  { intros Q HQ. destruct (decide (Q m)); [left|right]; by intros s ->. }
  rewrite (forEach_pull_stable (λ s, metadata (subjectAt s) = m)
             (matchesTarget metadataAt subjectAt)).
  2:{ intros t. apply (Hapart (λ m', targetName (metadataAt m') = t)). apply _. }
  rewrite (forEach_pull_stable (λ s, metadata (subjectAt s) = m)
             (matchesTargetOrAncestor metadataAt subjectAt)).
  2:{ intros t. apply (Hapart (λ m', targetName (metadataAt m') = t
                                   ∨ Exists (λ x, x = t) (inheritanceTree (metadataAt m')))).
      apply _. }
  case_decide; [|done]. by rewrite pull_eq.
Qed.

Lemma sort_keeps_order_within_metadata_witness :
  filter (λ s, metadata (Scenarios.oneEach s) = 0%nat) [1; 0; 0]%nat
  = filter (λ s, metadata (Scenarios.oneEach s) = 0%nat) [0; 1; 0]%nat.
Proof.
  apply (sort_keeps_order_within_metadata Scenarios.dependency Scenarios.oneEach
           [0; 1; 0]%nat [1; 0; 0]%nat insert 0%nat).
  vm_compute. reflexivity.
Defined.

(** When no entity of the subjects has a relation with a join column, [sort]
    returns the subjects in the order of the input, when deleting the
    junction subjects first. *)
Theorem sort_without_relations_keeps_the_order
    (metadataAt : MetadataRef → EntityMetadata) (subjectAt : SubjectRef → Subject)
    (input : list SubjectRef) (direction : Direction) :
  (∀ s, s ∈ input →
        relationsWithJoinColumns (metadataAt (metadata (subjectAt s))) = []) →
  sortSubjects metadataAt subjectAt input direction
  = Ok (if decide (direction = delete)
        then filter (isJunction subjectAt) input
             ++ filter (λ s, ¬ isJunction subjectAt s) input
        else input).
Proof.
  intros Hnone.
  assert (Hrel : ∀ m r, m ∈ metadatas (new subjectAt input) →
                   r ∉ relationsWithJoinColumns (metadataAt m)).
  { intros m r (s & Hs & <-)%(getUniqueMetadatas_elem metadataAt subjectAt).
    rewrite (Hnone s Hs). apply not_elem_of_nil. }
  assert (H1 : getNonNullableDependencies metadataAt (new subjectAt input) = []).
  { apply elem_of_nil_inv. intros [x y] Hxy.
    apply getNonNullableDependencies_elem in Hxy as (m & r & Hm & Hr & _); [|exact subjectAt].
    by apply (Hrel m r). }
  assert (H2 : getDependencies metadataAt (new subjectAt input) = []).
  { apply elem_of_nil_inv. intros [x y] Hxy.
    apply getDependencies_elem in Hxy as (m & r & Hm & Hr & _); [|exact subjectAt].
    by apply (Hrel m r). }
  unfold sortSubjects, sort. rewrite H1, H2.
  case_decide as Hlen.
  { apply (getUniqueMetadatas_nil metadataAt subjectAt) in Hlen. subst input.
    by case_decide. }
  change (toposort (@nil (string * string)))
    with (@Ok (TypeORMError string) _ (@nil (option string))).
  cbn [subjects new]. destruct direction.
  - destruct (decide (insert = delete)) as [?|_]; [done|].
    by destruct (decide (insert = insert)) as [_|?].
  - destruct (decide (delete = delete)) as [_|?]; [|done].
    destruct (decide (delete = insert)) as [?|_]; [done|].
    by rewrite pull_eq.
Qed.

Lemma sort_without_relations_keeps_the_order_witness :
  sortSubjects Scenarios.dependency Scenarios.oneEach [1; 1]%nat insert = Ok [1; 1]%nat.
Proof.
  apply (sort_without_relations_keeps_the_order Scenarios.dependency Scenarios.oneEach
           [1; 1]%nat insert).
  intros s Hs. repeat (apply elem_of_cons in Hs as [->|Hs]; [reflexivity|]).
  by apply elem_of_nil in Hs.
Defined.

(** A [sort] call that returns leaves in [this.subjects] the subjects it
    placed at the end of its result for want of a target; a second call on
    the same sorter returns too, and returns these subjects only. *)
Theorem sort_again_returns_what_was_left
    (metadataAt : MetadataRef → EntityMetadata) (subjectAt : SubjectRef → Subject)
    (this : t) (d1 d2 : Direction) (ws1 res1 : list SubjectRef) :
  sort metadataAt subjectAt this d1 = (ws1, Ok res1) →
  (∃ placed, res1 = placed ++ ws1 ∧ res1 ≡ₚ subjects this)
  ∧ ∃ ws2 res2,
      sort metadataAt subjectAt (Sorter ws1 (metadatas this)) d2 = (ws2, Ok res2)
      ∧ res2 ≡ₚ ws1.
Proof.
  assert (Hperm : ∀ this' d ws res,
            sort metadataAt subjectAt this' d = (ws, Ok res) →
            ∃ placed, res = placed ++ ws ∧ res ≡ₚ subjects this').
  { intros this' d ws res Hsort.
    destruct (decide (length (metadatas this') = 0%nat)) as [Hlen|Hlen].
    { unfold sort in Hsort. rewrite decide_True in Hsort by done.
      injection Hsort as <- <-. by exists []. }
    apply sort_unfold in Hsort as (l1 & l2 & _ & _ & _ & _ & w3 & Hw3 & -> & ->); [|done].
    exists w3.2. split; [done|].
    destruct (forEach_pull_tail2 (matchesTargetOrAncestor metadataAt subjectAt)
                (matchesTarget metadataAt subjectAt)
                (Some <$> (if decide (d = insert) then reverse l1 else l1))
                (Some <$> (if decide (d = insert) then reverse l2 else l2))
                (if decide (d = delete)
                 then pull (isJunction subjectAt) (subjects this', [])
                 else (subjects this', [])))
      as (tail & Hres & Htail).
    rewrite <- Hw3 in Hres. rewrite Hres, Htail.
    case_decide; [|done]. rewrite pull_eq. cbn [fst snd app].
    apply filter_app_complement. }
  intros Hsort. split; [by eapply Hperm|].
  assert (Hagain : ∃ ws2 res2,
            sort metadataAt subjectAt (Sorter ws1 (metadatas this)) d2 = (ws2, Ok res2)).
  { unfold sort in Hsort |- *. cbn [metadatas subjects].
    unfold getNonNullableDependencies, getDependencies in Hsort |- *. cbn [metadatas].
    case_decide; [by eauto|].
    destruct (toposort _) as [s1|e|]; [|done|done].
    destruct (toposort _) as [s2|e|]; [|done|done].
    by eauto. }
  destruct Hagain as (ws2 & res2 & Hagain). exists ws2, res2. split; [done|].
  by destruct (Hperm _ _ _ _ Hagain) as (_ & _ & ?).
Qed.

Lemma sort_again_returns_what_was_left_witness :
  (∃ placed, [1; 0]%nat = placed ++ [] ∧ [1; 0]%nat ≡ₚ [0; 1]%nat)
  ∧ ∃ ws2 res2,
      sort Scenarios.dependency Scenarios.oneEach
        (Sorter [] (metadatas (new Scenarios.oneEach [0; 1]%nat))) insert
      = (ws2, Ok res2)
      ∧ res2 ≡ₚ [].
Proof.
  apply (sort_again_returns_what_was_left Scenarios.dependency Scenarios.oneEach
           (new Scenarios.oneEach [0; 1]%nat) insert insert [] [1; 0]%nat).
  vm_compute. reflexivity.
Defined.

(** The array [sort] returns is a new one, which is neither [this.subjects]
    nor any array that existed before the call; only a sorter without
    metadatas returns [this.subjects] itself. *)
Theorem sort_returns_new_array_unless_empty
    (metadataAt : MetadataRef → EntityMetadata) (subjectAt : SubjectRef → Subject)
    (h h' : gmap ArrayRef (list SubjectRef)) (this : SorterObject.instance)
    (direction : Direction) (a : ArrayRef) :
  SorterObject.sort metadataAt subjectAt h this direction = (h', Ok a) →
  if decide (length (SorterObject.metadatasOf this) = 0%nat)
  then a = SorterObject.subjectsRef this
  else (a ∉ dom h) ∧ a ≠ SorterObject.subjectsRef this ∧ is_Some (h' !! a).
Proof.
  unfold SorterObject.sort.
  destruct (sort metadataAt subjectAt _ direction) as [ws r].
  destruct r as [res|e|]; [|done|done].
  case_decide; [by intros [= _ <-]|].
  unfold SorterObject.alloc. intros [= <- <-].
  pose proof (is_fresh (dom (<[SorterObject.subjectsRef this := ws]> h))) as Hfresh.
  split_and!.
  - intros Hin. apply Hfresh. rewrite dom_insert. set_solver.
  - intros Heq. apply Hfresh. rewrite Heq, dom_insert. set_solver.
  - rewrite lookup_insert_eq. by eexists.
Qed.

Lemma sort_returns_new_array_unless_empty_witness :
  (1%nat ∉ dom ({[ 0%nat := [0; 1]%nat ]} : gmap ArrayRef (list SubjectRef)))
  ∧ 1%nat ≠ 0%nat
  ∧ is_Some ((<[ 1%nat := [1; 0]%nat ]> {[ 0%nat := [] ]}
               : gmap ArrayRef (list SubjectRef)) !! 1%nat).
Proof.
  apply (sort_returns_new_array_unless_empty Scenarios.dependency Scenarios.oneEach
           {[ 0%nat := [0; 1]%nat ]} (<[ 1%nat := [1; 0]%nat ]> {[ 0%nat := [] ]})
           (SorterObject.Instance 0%nat [0; 1]%nat) insert 1%nat).
  vm_compute. reflexivity.
Defined.

(** * The claims about the cache *)

Import RedisQueryResultCache CacheFacts.

(** C7, as the claim states it, fails: the empty text is not parsable
    JSON, and a stored empty text is read as a miss by both client
    generations. *)
Lemma getFromCache_empty_text_is_a_miss :
  JSON.parse "" = None
  ∧ getFromCache (Scenarios.promiseCache {[ "Q1" := ("", 60000) ]})
                 (Scenarios.byQuery "Q1") = resolve None
  ∧ getFromCache (Scenarios.callbackCache Deferred {[ "Q1" := ("", 60000) ]})
                 (Scenarios.byQuery "Q1") = resolve None
  ∧ getFromCache (Scenarios.callbackCache Immediate {[ "Q1" := ("", 60000) ]})
                 (Scenarios.byQuery "Q1") = resolve None.
Proof. split_and!; vm_compute; reflexivity. Qed.

(** C7, amended. For every stored value whose text is not empty and not
    parsable JSON, [getFromCache] on its key does not resolve to the absent
    result with either client generation, and with the promise-based client
    the promise is rejected with the error of [JSON.parse]; a stored empty
    text is read as a miss with both. *)
Theorem getFromCache_unparsable_text (this : t) (options : QueryResultCacheOptions)
    (key text : string) (px : Z) :
  keyOf options = Some key → key ≠ "" →
  failure (client this) = None →
  entries (client this) !! key = Some (text, px) →
  JSON.parse text = None →
  if decide (text = "") then getFromCache this options = resolve None
  else settled (getFromCache this options) ≠ Fulfilled None
       ∧ (isRedis5OrHigher this = true →
          getFromCache this options = reject SyntaxError).
Proof.
  intros Hkey Hne Hfail Hentry Hparse. unfold getFromCache. rewrite Hkey.
  apply truthy_Some in Hne. rewrite Hne. cbn [negb].
  unfold getReply. rewrite Hfail, Hentry. cbn [fmap option_fmap option_map fst].
  unfold getCallback, andThen, parseResult.
  case_decide as Htext.
  - apply truthy_false_Some in Htext. rewrite Htext.
    by destruct (isRedis5OrHigher this).
  - apply truthy_Some in Htext. rewrite Htext, Hparse. split.
    + destruct (isRedis5OrHigher this); [done|].
      by destruct (dispatch (client this)).
    + by intros ->.
Qed.

(** The stored text is an opening brace, with either client generation. *)
Lemma getFromCache_unparsable_text_witness :
  (settled (getFromCache (Scenarios.callbackCache Deferred {[ "Q1" := ("{", 60000) ]})
                         (Scenarios.byQuery "Q1")) ≠ Fulfilled None
   ∧ (isRedis5OrHigher (Scenarios.callbackCache Deferred {[ "Q1" := ("{", 60000) ]}) = true →
      getFromCache (Scenarios.callbackCache Deferred {[ "Q1" := ("{", 60000) ]})
                   (Scenarios.byQuery "Q1") = reject SyntaxError))
  ∧ (settled (getFromCache (Scenarios.promiseCache {[ "Q1" := ("{", 60000) ]})
                           (Scenarios.byQuery "Q1")) ≠ Fulfilled None
     ∧ (isRedis5OrHigher (Scenarios.promiseCache {[ "Q1" := ("{", 60000) ]}) = true →
        getFromCache (Scenarios.promiseCache {[ "Q1" := ("{", 60000) ]})
                     (Scenarios.byQuery "Q1") = reject SyntaxError)).
Proof.
  split.
  - apply (getFromCache_unparsable_text
             (Scenarios.callbackCache Deferred {[ "Q1" := ("{", 60000) ]})
             (Scenarios.byQuery "Q1") "Q1" "{" 60000);
      [reflexivity|discriminate|reflexivity|reflexivity|vm_compute; reflexivity].
  - apply (getFromCache_unparsable_text
             (Scenarios.promiseCache {[ "Q1" := ("{", 60000) ]})
             (Scenarios.byQuery "Q1") "Q1" "{" 60000);
      [reflexivity|discriminate|reflexivity|reflexivity|vm_compute; reflexivity].
Defined.

(** C8, as the claim states it, fails: identifiers and query texts are
    keys of one key space, so a lookup by the query text [id1] returns the
    entry that was stored under the identifier [id1]; and an identifier that
    is present but empty is not the key. *)
Lemma lookup_by_query_returns_entry_of_identifier :
  keyOf Scenarios.storedUnderId1 = Some "id1"
  ∧ identifier (Scenarios.byQuery "id1") = None
  ∧ getFromCache
      (storeInCache Scenarios.stringifyOptions (Scenarios.promiseCache ∅)
         Scenarios.storedUnderId1 Scenarios.storedUnderId1).1
      (Scenarios.byQuery "id1")
    = resolve (Some (JSON.Object [("identifier", JSON.Str "id1");
                                  ("query", JSON.Str "Q2");
                                  ("time", JSON.Number "1000");
                                  ("duration", JSON.Number "60000");
                                  ("result", JSON.Array [JSON.Number "1"])]))
  ∧ keyOf (Options (Some "") (Some "Q2") None 0 None) = Some "Q2".
Proof. split_and!; vm_compute; reflexivity. Qed.

(** C8, amended. The key of [getFromCache] and of [storeInCache] is
    [options.identifier] when it is present and not empty, and
    [options.query] when the identifier is absent: with a client that does
    not fail, the lookup is fulfilled with undefined when the key has no
    entry and with the parsed text of the entry at the key when it has one,
    whatever the other keys hold, and the store writes the text of the
    options with [options.duration] at the key and nowhere else. With both
    absent (an empty query text counts as absent) [getFromCache] resolves to
    the absent result and [storeInCache] leaves the cache as it is, and
    neither fails. An entry stored under the identifier [id1] is not
    returned by a lookup by a query text other than [id1]: that lookup
    gives what it gave before the entry was stored. *)
Theorem cache_key_selection (stringify : QueryResultCacheOptions → string)
    (this : t) (options savedCache : QueryResultCacheOptions) :
  (∀ key,
     identifier options = Some key
     ∨ (identifier options = None ∧ query options = Some key) →
     key ≠ "" →
     failure (client this) = None →
     (entries (client this) !! key = None →
      getFromCache this options = resolve None)
     ∧ (∀ text px v,
          entries (client this) !! key = Some (text, px) →
          JSON.parse text = Some v →
          getFromCache this options = resolve (Some v))
     ∧ entries (client (storeInCache stringify this options savedCache).1)
       = <[key := (stringify options, duration options)]> (entries (client this))
     ∧ (storeInCache stringify this options savedCache).2 = resolve tt)
  ∧ (identifier options = None →
     query options = None ∨ query options = Some "" →
     getFromCache this options = resolve None
     ∧ storeInCache stringify this options savedCache = (this, resolve tt))
  ∧ (∀ lookup q,
       identifier options = Some "id1" →
       identifier lookup = None → query lookup = Some q → q ≠ "id1" →
       getFromCache (storeInCache stringify this options savedCache).1 lookup
       = getFromCache this lookup).
Proof.
  split_and!.
  - intros key Hsel Hne Hfail.
    assert (Hkey : keyOf options = Some key).
    { unfold keyOf. destruct Hsel as [Hi|[Hi Hq]]; rewrite Hi; [|done].
      by rewrite (proj2 (truthy_Some key) Hne). }
    split_and!.
    + intros Hnone. apply getFromCache_miss; [done|].
      intros key' Hkey'. congruence.
    + intros text px v Hentry Hparse. by eapply getFromCache_hit.
    + by apply storeInCache_writes.
    + by eapply storeInCache_writes.
  - intros Hi Hq. unfold getFromCache, storeInCache, keyOf. rewrite Hi.
    by destruct Hq as [-> | ->].
  - intros lookup q Hi Hli Hlq Hne.
    assert (Hkey : keyOf options = Some "id1").
    { unfold keyOf. by rewrite Hi. }
    assert (Hlkey : keyOf lookup = Some q).
    { unfold keyOf. by rewrite Hli, Hlq. }
    destruct (storeInCache_fields stringify this options savedCache)
      as (Htype & Hversion & Hfail & Hdispatch & Hentries).
    apply getFromCache_frame; [done..|].
    intros key Hk. apply Hentries. congruence.
Qed.

(** The options stored under [id1] with query text [Q2]: the lookup
    reads the key [id1] and not the key [Q2], the store writes the key
    [id1] only, and a lookup by the query text [Q2] is not affected. *)
Lemma cache_key_selection_witness :
  getFromCache (Scenarios.promiseCache {[ "id1" := ("[1]", 60000) ]})
    Scenarios.storedUnderId1
  = resolve (Some (JSON.Array [JSON.Number "1"]))
  ∧ getFromCache (Scenarios.promiseCache {[ "Q2" := ("[1]", 60000) ]})
      Scenarios.storedUnderId1
    = resolve None
  ∧ entries (client (storeInCache Scenarios.stringifyOptions (Scenarios.promiseCache ∅)
                       Scenarios.storedUnderId1 Scenarios.storedUnderId1).1)
    = {[ "id1" := (Scenarios.stringifyOptions Scenarios.storedUnderId1, 60000) ]}
  ∧ getFromCache
      (storeInCache Scenarios.stringifyOptions (Scenarios.promiseCache ∅)
         Scenarios.storedUnderId1 Scenarios.storedUnderId1).1
      (Scenarios.byQuery "Q2")
    = getFromCache (Scenarios.promiseCache ∅) (Scenarios.byQuery "Q2").
Proof.
  split_and!.
  - destruct (cache_key_selection Scenarios.stringifyOptions
                (Scenarios.promiseCache {[ "id1" := ("[1]", 60000) ]})
                Scenarios.storedUnderId1 Scenarios.storedUnderId1) as (Hkey & _ & _).
    destruct (Hkey "id1") as (_ & Hhit & _ & _);
      [by left|discriminate|reflexivity|].
    apply (Hhit "[1]" 60000); [reflexivity|vm_compute; reflexivity].
  - destruct (cache_key_selection Scenarios.stringifyOptions
                (Scenarios.promiseCache {[ "Q2" := ("[1]", 60000) ]})
                Scenarios.storedUnderId1 Scenarios.storedUnderId1) as (Hkey & _ & _).
    destruct (Hkey "id1") as (Hmiss & _ & _ & _);
      [by left|discriminate|reflexivity|].
    apply Hmiss. reflexivity.
  - destruct (cache_key_selection Scenarios.stringifyOptions (Scenarios.promiseCache ∅)
                Scenarios.storedUnderId1 Scenarios.storedUnderId1) as (Hkey & _ & _).
    destruct (Hkey "id1") as (_ & _ & Hstore & _);
      [by left|discriminate|reflexivity|].
    rewrite Hstore. reflexivity.
  - destruct (cache_key_selection Scenarios.stringifyOptions (Scenarios.promiseCache ∅)
                Scenarios.storedUnderId1 Scenarios.storedUnderId1)
      as (_ & _ & Hframe).
    apply (Hframe (Scenarios.byQuery "Q2") "Q2"); [reflexivity..|discriminate].
Defined.

(** C10. An identifier that is the empty string counts as absent. The
    key is [options.query]: with a client that does not fail and a query
    text that is not empty, the lookup is fulfilled with undefined when the
    query text has no entry and with the parsed text of its entry when it
    has one, whatever is stored under the empty key, and the store writes
    the text of the options at the query text and nowhere else, so never
    under the empty key. When the query is absent or empty as well, both
    calls are the silent no-op. The lookup is the lookup without
    identifier, and the store is the store without identifier of the same
    text. *)
Theorem empty_identifier_is_absent (stringify : QueryResultCacheOptions → string)
    (this : t) (savedCache : QueryResultCacheOptions)
    (q : option string) (tm : option Z) (d : Z) (r : option JSON.value) :
  (∀ key, q = Some key → key ≠ "" → failure (client this) = None →
     (entries (client this) !! key = None →
      getFromCache this (Options (Some "") q tm d r) = resolve None)
     ∧ (∀ text px v,
          entries (client this) !! key = Some (text, px) →
          JSON.parse text = Some v →
          getFromCache this (Options (Some "") q tm d r) = resolve (Some v))
     ∧ entries (client (storeInCache stringify this (Options (Some "") q tm d r)
                          savedCache).1)
       = <[key := (stringify (Options (Some "") q tm d r), d)]> (entries (client this))
     ∧ (storeInCache stringify this (Options (Some "") q tm d r) savedCache).2
       = resolve tt)
  ∧ entries (client (storeInCache stringify this (Options (Some "") q tm d r)
                       savedCache).1) !! ""
    = entries (client this) !! ""
  ∧ (q = None ∨ q = Some "" →
     getFromCache this (Options (Some "") q tm d r) = resolve None
     ∧ storeInCache stringify this (Options (Some "") q tm d r) savedCache
       = (this, resolve tt))
  ∧ getFromCache this (Options (Some "") q tm d r)
    = getFromCache this (Options None q tm d r)
  ∧ storeInCache stringify this (Options (Some "") q tm d r) savedCache
    = storeInCache (λ _, stringify (Options (Some "") q tm d r)) this
        (Options None q tm d r) savedCache.
Proof.
  assert (Hkey : keyOf (Options (Some "") q tm d r) = q) by done.
  split_and!; try done.
  - intros key -> Hne Hfail. split_and!.
    + intros Hnone. apply getFromCache_miss; [done|].
      intros key' Hkey'. congruence.
    + intros text px v Hentry Hparse. by eapply getFromCache_hit.
    + by apply (storeInCache_writes stringify this
                  (Options (Some "") (Some key) tm d r) savedCache key).
    + by apply (storeInCache_writes stringify this
                  (Options (Some "") (Some key) tm d r) savedCache key).
  - unfold storeInCache. rewrite Hkey. destruct q as [key|]; [|done].
    destruct (truthy (Some key)) eqn:Htruthy; cbn [negb]; [|done].
    apply truthy_Some in Htruthy.
    destruct (failure (client this)); [done|]. cbn.
    by rewrite lookup_insert_ne.
  - intros Hq. unfold getFromCache, storeInCache. rewrite Hkey.
    by destruct Hq as [-> | ->].
Qed.

(** With an entry under the empty key: the lookup with the empty
    identifier reads the entry of the query text [Q2], misses when [Q2] has
    none, and is the no-op without query; the store writes under [Q2]
    only. *)
Lemma empty_identifier_is_absent_witness :
  getFromCache
    (Scenarios.promiseCache {[ "" := ("[0]", 60000); "Q2" := ("[1]", 60000) ]})
    (Options (Some "") (Some "Q2") None 0 None)
  = resolve (Some (JSON.Array [JSON.Number "1"]))
  ∧ getFromCache
      (Scenarios.promiseCache {[ "" := ("[0]", 60000) ]})
      (Options (Some "") (Some "Q2") None 0 None)
    = resolve None
  ∧ getFromCache
      (Scenarios.promiseCache {[ "" := ("[0]", 60000) ]})
      (Options (Some "") None None 0 None)
    = resolve None
  ∧ entries (client (storeInCache Scenarios.stringifyOptions (Scenarios.promiseCache ∅)
                       (Options (Some "") (Some "Q2") None 0 None)
                       (Options (Some "") (Some "Q2") None 0 None)).1)
    = {[ "Q2" := (Scenarios.stringifyOptions (Options (Some "") (Some "Q2") None 0 None),
                  0) ]}.
Proof.
  split_and!.
  - destruct (empty_identifier_is_absent Scenarios.stringifyOptions
                (Scenarios.promiseCache {[ "" := ("[0]", 60000); "Q2" := ("[1]", 60000) ]})
                (Options (Some "") (Some "Q2") None 0 None)
                (Some "Q2") None 0 None) as (Hkey & _).
    destruct (Hkey "Q2") as (_ & Hhit & _ & _); [reflexivity|discriminate|reflexivity|].
    apply (Hhit "[1]" 60000); [reflexivity|vm_compute; reflexivity].
  - destruct (empty_identifier_is_absent Scenarios.stringifyOptions
                (Scenarios.promiseCache {[ "" := ("[0]", 60000) ]})
                (Options (Some "") (Some "Q2") None 0 None)
                (Some "Q2") None 0 None) as (Hkey & _).
    destruct (Hkey "Q2") as (Hmiss & _ & _ & _); [reflexivity|discriminate|reflexivity|].
    apply Hmiss. reflexivity.
  - destruct (empty_identifier_is_absent Scenarios.stringifyOptions
                (Scenarios.promiseCache {[ "" := ("[0]", 60000) ]})
                (Options (Some "") None None 0 None)
                None None 0 None) as (_ & _ & Hnoop & _).
    apply Hnoop. by left.
  - destruct (empty_identifier_is_absent Scenarios.stringifyOptions
                (Scenarios.promiseCache ∅)
                (Options (Some "") (Some "Q2") None 0 None)
                (Some "Q2") None 0 None) as (Hkey & _).
    destruct (Hkey "Q2") as (_ & _ & Hstore & _); [reflexivity|discriminate|reflexivity|].
    rewrite Hstore. reflexivity.
Defined.

(** * Further properties of the cache *)

(** What [storeInCache] stores, [getFromCache] returns: with a client that
    does not fail and a key that is not empty, the entry at the key is the
    text of [options] with [options.duration] as its time to live, and a
    lookup with the same options is fulfilled with the parsed text, with
    both client generations. [savedCache] plays no part. *)
Theorem storeInCache_then_getFromCache (stringify : QueryResultCacheOptions → string)
    (this : t) (options savedCache : QueryResultCacheOptions) (key : string)
    (v : JSON.value) :
  failure (client this) = None →
  keyOf options = Some key → key ≠ "" →
  JSON.parse (stringify options) = Some v →
  entries (client (storeInCache stringify this options savedCache).1) !! key
  = Some (stringify options, duration options)
  ∧ (storeInCache stringify this options savedCache).2 = resolve tt
  ∧ getFromCache (storeInCache stringify this options savedCache).1 options
    = resolve (Some v).
Proof.
  intros Hfail Hkey Hne Hparse.
  assert (Hstore : storeInCache stringify this options savedCache
                   = (Cache (clientType this) (redisMajorVersion this)
                        (setEntry (client this) key (stringify options) (duration options)),
                      resolve tt)).
  { unfold storeInCache. rewrite Hkey, Hfail.
    apply truthy_Some in Hne. rewrite Hne. cbn [negb].
    by destruct (isRedis5OrHigher this). }
  rewrite Hstore. unfold setEntry. cbn [fst snd client entries].
  split_and!; [by rewrite lookup_insert_eq|done|].
  eapply getFromCache_hit; [done|done|done| |done].
  cbn [client entries]. by rewrite lookup_insert_eq.
Qed.

Lemma storeInCache_then_getFromCache_witness :
  entries (client (storeInCache Scenarios.stringifyOptions (Scenarios.promiseCache ∅)
                     Scenarios.storedUnderId1 Scenarios.storedUnderId1).1) !! "id1"
  = Some (Scenarios.stringifyOptions Scenarios.storedUnderId1, 60000)
  ∧ (storeInCache Scenarios.stringifyOptions (Scenarios.promiseCache ∅)
       Scenarios.storedUnderId1 Scenarios.storedUnderId1).2 = resolve tt
  ∧ getFromCache
      (storeInCache Scenarios.stringifyOptions (Scenarios.promiseCache ∅)
         Scenarios.storedUnderId1 Scenarios.storedUnderId1).1
      Scenarios.storedUnderId1
    = resolve (Some (JSON.Object [("identifier", JSON.Str "id1");
                                  ("query", JSON.Str "Q2");
                                  ("time", JSON.Number "1000");
                                  ("duration", JSON.Number "60000");
                                  ("result", JSON.Array [JSON.Number "1"])])).
Proof.
  apply (storeInCache_then_getFromCache Scenarios.stringifyOptions
           (Scenarios.promiseCache ∅) Scenarios.storedUnderId1 Scenarios.storedUnderId1
           "id1").
  - reflexivity.
  - reflexivity.
  - discriminate.
  - vm_compute. reflexivity.
Defined.

(** [storeInCache] changes no lookup under another key. *)
Theorem storeInCache_leaves_other_keys (stringify : QueryResultCacheOptions → string)
    (this : t) (options savedCache other : QueryResultCacheOptions) :
  keyOf other ≠ keyOf options →
  getFromCache (storeInCache stringify this options savedCache).1 other
  = getFromCache this other.
Proof.
  intros Hne.
  destruct (storeInCache_fields stringify this options savedCache)
    as (Htype & Hversion & Hfail & Hdispatch & Hentries).
  apply getFromCache_frame; [done..|].
  intros key Hkey. apply Hentries. congruence.
Qed.

Lemma storeInCache_leaves_other_keys_witness :
  getFromCache
    (storeInCache Scenarios.stringifyOptions (Scenarios.callbackCache Deferred ∅)
       Scenarios.storedUnderId1 Scenarios.storedUnderId1).1
    (Scenarios.byQuery "Q2")
  = getFromCache (Scenarios.callbackCache Deferred ∅) (Scenarios.byQuery "Q2").
Proof.
  apply (storeInCache_leaves_other_keys Scenarios.stringifyOptions
           (Scenarios.callbackCache Deferred ∅)
           Scenarios.storedUnderId1 Scenarios.storedUnderId1 (Scenarios.byQuery "Q2")).
  vm_compute. discriminate.
Defined.

(** When the client answers with an error, the promise of [getFromCache],
    [storeInCache], [clear] and [deleteKey] is rejected with that error,
    with both client generations, and the cache is left as it was. *)
Theorem client_error_rejects (stringify : QueryResultCacheOptions → string)
    (this : t) (options savedCache : QueryResultCacheOptions) (key : string)
    (err : Error) :
  failure (client this) = Some err →
  keyOf options = Some key → key ≠ "" →
  getFromCache this options = reject err
  ∧ storeInCache stringify this options savedCache = (this, reject err)
  ∧ clear this = (this, reject err)
  ∧ deleteKey this key = (this, reject err).
Proof.
  intros Hfail Hkey Hne. apply truthy_Some in Hne.
  unfold getFromCache, storeInCache, clear, deleteKey, getReply.
  rewrite Hkey, Hne, Hfail. cbn [negb].
  by destruct (isRedis5OrHigher this).
Qed.

Lemma client_error_rejects_witness :
  getFromCache (Cache redis (Some 3) (MkClient ∅ (Some (ClientError "down")) Deferred))
    Scenarios.storedUnderId1
  = reject (ClientError "down")
  ∧ storeInCache Scenarios.stringifyOptions
      (Cache redis (Some 3) (MkClient ∅ (Some (ClientError "down")) Deferred))
      Scenarios.storedUnderId1 Scenarios.storedUnderId1
    = (Cache redis (Some 3) (MkClient ∅ (Some (ClientError "down")) Deferred),
       reject (ClientError "down"))
  ∧ clear (Cache redis (Some 3) (MkClient ∅ (Some (ClientError "down")) Deferred))
    = (Cache redis (Some 3) (MkClient ∅ (Some (ClientError "down")) Deferred),
       reject (ClientError "down"))
  ∧ deleteKey (Cache redis (Some 3) (MkClient ∅ (Some (ClientError "down")) Deferred))
      "id1"
    = (Cache redis (Some 3) (MkClient ∅ (Some (ClientError "down")) Deferred),
       reject (ClientError "down")).
Proof.
  apply (client_error_rejects Scenarios.stringifyOptions
           (Cache redis (Some 3) (MkClient ∅ (Some (ClientError "down")) Deferred))
           Scenarios.storedUnderId1 Scenarios.storedUnderId1 "id1" (ClientError "down")).
  - reflexivity.
  - reflexivity.
  - discriminate.
Defined.

(** After [clear] every lookup is fulfilled with undefined. *)
Theorem clear_empties_the_cache (this : t) (options : QueryResultCacheOptions) :
  failure (client this) = None →
  (clear this).2 = resolve tt
  ∧ getFromCache (clear this).1 options = resolve None.
Proof.
  intros Hfail. unfold clear. rewrite Hfail. cbn [fst snd]. split.
  - by destruct (isRedis5OrHigher this).
  - apply getFromCache_miss; [done|]. intros key _. apply lookup_empty.
Qed.

Lemma clear_empties_the_cache_witness :
  (clear (Scenarios.callbackCache Immediate {[ "id1" := ("[1]", 60000) ]})).2 = resolve tt
  ∧ getFromCache
      (clear (Scenarios.callbackCache Immediate {[ "id1" := ("[1]", 60000) ]})).1
      Scenarios.storedUnderId1
    = resolve None.
Proof.
  apply (clear_empties_the_cache
           (Scenarios.callbackCache Immediate {[ "id1" := ("[1]", 60000) ]})
           Scenarios.storedUnderId1).
  reflexivity.
Defined.

(** After [remove(identifiers)] a lookup whose key is one of the identifiers
    is fulfilled with undefined, and the promise of [remove] is fulfilled. *)
Theorem remove_deletes_the_identifiers (this : t) (identifiers : list string)
    (options : QueryResultCacheOptions) (key : string) :
  failure (client this) = None →
  keyOf options = Some key → key ∈ identifiers →
  (remove this identifiers).2 = resolve tt
  ∧ getFromCache (remove this identifiers).1 options = resolve None.
Proof.
  intros Hfail Hkey Hin. unfold remove.
  pose proof (remove_loop identifiers this []) as Hloop. cbn zeta in Hloop.
  destruct (foldl _ (this, []) identifiers) as [this' promises]. cbn [fst snd] in *.
  destruct Hloop as (_ & _ & Hfail' & _ & _ & Hdeleted).
  destruct (Hdeleted Hfail) as [Hgone Hall].
  destruct (promiseAll_fulfilled promises (Hall (Forall_nil_2 _))) as [-> ->].
  split; [done|]. apply getFromCache_miss; [congruence|].
  intros key' Hkey'. apply Hgone. congruence.
Qed.

Lemma remove_deletes_the_identifiers_witness :
  (remove (Scenarios.promiseCache {[ "id1" := ("[1]", 60000) ]}) ["id0"; "id1"]).2
  = resolve tt
  ∧ getFromCache
      (remove (Scenarios.promiseCache {[ "id1" := ("[1]", 60000) ]}) ["id0"; "id1"]).1
      Scenarios.storedUnderId1
    = resolve None.
Proof.
  apply (remove_deletes_the_identifiers
           (Scenarios.promiseCache {[ "id1" := ("[1]", 60000) ]}) ["id0"; "id1"]
           Scenarios.storedUnderId1 "id1").
  - reflexivity.
  - reflexivity.
  - apply list_elem_of_further, list_elem_of_here.
Defined.

(** [remove(identifiers)] changes no lookup whose key is not among the
    identifiers. *)
Theorem remove_leaves_other_keys (this : t) (identifiers : list string)
    (options : QueryResultCacheOptions) :
  (∀ key, keyOf options = Some key → key ∉ identifiers) →
  getFromCache (remove this identifiers).1 options = getFromCache this options.
Proof.
  intros Hother. unfold remove.
  pose proof (remove_loop identifiers this []) as Hloop. cbn zeta in Hloop.
  destruct (foldl _ (this, []) identifiers) as [this' promises]. cbn [fst snd] in *.
  destruct Hloop as (Htype & Hversion & Hfail & Hdispatch & Hentries & _).
  apply getFromCache_frame; [done..|].
  intros key Hkey. by apply Hentries, Hother.
Qed.

Lemma remove_leaves_other_keys_witness :
  getFromCache
    (remove (Scenarios.promiseCache {[ "id1" := ("[1]", 60000) ]}) ["id0"; "Q2"]).1
    Scenarios.storedUnderId1
  = getFromCache (Scenarios.promiseCache {[ "id1" := ("[1]", 60000) ]})
      Scenarios.storedUnderId1.
Proof.
  apply (remove_leaves_other_keys
           (Scenarios.promiseCache {[ "id1" := ("[1]", 60000) ]}) ["id0"; "Q2"]
           Scenarios.storedUnderId1).
  intros key [= <-] Hin.
  repeat (apply elem_of_cons in Hin as [Hin|Hin]; [discriminate|]).
  by apply elem_of_nil in Hin.
Defined.

(** A saved cache that [isExpired] reports expired has a [time], which with
    its [duration] lies strictly before now, and it is reported expired at
    every later time; one without [time] never is. *)
Theorem isExpired_stays_expired (savedCache : QueryResultCacheOptions) (now later : Z) :
  isExpired savedCache now = true → now ≤ later →
  (∃ t, time savedCache = Some t ∧ t + duration savedCache < now)
  ∧ isExpired savedCache later = true.
Proof.
  unfold isExpired. destruct (time savedCache) as [t|]; [|done].
  rewrite !bool_decide_eq_true. intros Hnow Hlater. split; [by exists t|lia].
Qed.

Lemma isExpired_stays_expired_witness :
  (∃ t, time Scenarios.storedUnderId1 = Some t
        ∧ t + duration Scenarios.storedUnderId1 < 61001)
  ∧ isExpired Scenarios.storedUnderId1 70000 = true.
Proof.
  apply (isExpired_stays_expired Scenarios.storedUnderId1 61001 70000).
  - reflexivity.
  - lia.
Defined.
